(** * Count-min sketch of bustub's primer: a shallow embedding and its properties

    The development follows [src/primer/count_min_sketch.cpp] and
    [src/include/primer/count_min_sketch.h].

    - [uint32_t] and [size_t] values are integers of [Z]; every place where the
      C++ arithmetic wraps is written out with [wrap32] or [to_size_t].
    - The object is a record; member functions run in a state monad over it
      whose outcomes are a normal return, a C++ exception, or undefined
      behaviour (an index outside a [std::vector], a remainder by zero).
    - [std::hash] and [HashUtil::CombineHashes] live outside the two files: they
      are parameters of the development.
    - Each [std::lock_guard] is taken and released inside one loop iteration;
      in this sequential model it only indexes [row_locks_]. *)

From Stdlib Require Import ZArith Lia List String.
From stdpp Require Import base numbers list sorting.

Local Open Scope Z_scope.

(** ** Machine integers *)

Definition UINT32_MAX : Z := 4294967295.
Definition UINT16_MAX : Z := 65535.

(** Arithmetic on [uint32_t] is modulo [2^32]. *)
Definition wrap32 (z : Z) : Z := z mod 4294967296.

(** Arithmetic on [size_t] (and [hash_t]) is modulo [2^64]. *)
Definition to_size_t (z : Z) : Z := z mod 18446744073709551616.

(** [constexpr static size_t SEED_BASE = 15445;] *)
Definition SEED_BASE : Z := 15445.

(** ** The object *)

(** The data members of [CountMinSketch<KeyType>].  A member of
    [hash_functions_] is the closure [[seed, this]] built by [HashFunction]:
    it is stored as its captured seed, and [this] is the object that holds the
    vector (closures are created by the constructor only and no operation
    hands them to another object).  [row_locks_] is the number of mutexes;
    every mutex is free between two calls. *)
Record CountMinSketch : Type := mkCountMinSketch {
  width_ : Z;
  depth_ : Z;
  counts_ : list (list Z);
  row_locks_ : nat;
  hash_functions_ : list Z
}.

(** ** Outcomes of a member function *)

Inductive vector_name : Type :=
| vec_counts | vec_counts_row | vec_row_locks | vec_hash_functions
| vec_other_counts | vec_other_counts_row.

Inductive undefined_behaviour : Type :=
| index_out_of_range (v : vector_name) (i : nat)
| remainder_by_zero.

Inductive exception : Type :=
| invalid_argument (what : string).

Inductive outcome (A : Type) : Type :=
| Ok (a : A) (this : CountMinSketch)
| Throw (e : exception) (this : CountMinSketch)
| Undefined (u : undefined_behaviour).

Arguments Ok {A} a this.
Arguments Throw {A} e this.
Arguments Undefined {A} u.

Definition M (A : Type) : Type := CountMinSketch -> outcome A.

Definition ret {A} (a : A) : M A := fun this => Ok a this.

Definition bind {A B} (m : M A) (k : A -> M B) : M B := fun this =>
  match m this with
  | Ok a this' => k a this'
  | Throw e this' => Throw e this'
  | Undefined u => Undefined u
  end.

Definition get {A} (f : CountMinSketch -> A) : M A := fun this => Ok (f this) this.

Definition throw {A} (e : exception) : M A := fun this => Throw e this.

Definition undefined {A} (u : undefined_behaviour) : M A := fun _ => Undefined u.

Declare Scope cms_scope.
Delimit Scope cms_scope with cms.
Notation "x <- c1 ;; c2" := (bind c1 (fun x => c2))
  (at level 100, c1 at next level, right associativity) : cms_scope.
Notation "c1 ;; c2" := (bind c1 (fun _ => c2))
  (at level 100, right associativity) : cms_scope.
Local Open Scope cms_scope.

(** [for (size_t i = 0; i < n; i++) body], with the local variables the body
    updates threaded as [acc]. *)
Fixpoint for_from {A} (i : nat) (n : nat) (body : nat -> A -> M A) (acc : A) : M A :=
  match n with
  | O => ret acc
  | S n' => acc' <- body i acc ;; for_from (S i) n' body acc'
  end.

Definition for_loop {A} (n : nat) (body : nat -> A -> M A) (acc : A) : M A :=
  for_from 0 n body acc.

(** ** Accessors with the bounds [std::vector::operator[]] assumes *)

(** [std::lock_guard<std::mutex> lock(row_locks_[r]);] *)
Definition lock_guard (r : nat) : M unit := fun this =>
  if (r <? row_locks_ this)%nat then Ok tt this
  else Undefined (index_out_of_range vec_row_locks r).

(** Reading [counts_[r][c]]. *)
Definition read_count (r c : nat) : M Z := fun this =>
  match counts_ this !! r with
  | None => Undefined (index_out_of_range vec_counts r)
  | Some row =>
      match row !! c with
      | None => Undefined (index_out_of_range vec_counts_row c)
      | Some v => Ok v this
      end
  end.

Definition set_counts (g : list (list Z)) (this : CountMinSketch) : CountMinSketch :=
  mkCountMinSketch (width_ this) (depth_ this) g (row_locks_ this) (hash_functions_ this).

(** Writing [counts_[r][c] = v] (the cell exists: it was read just before). *)
Definition write_count (r c : nat) (v : Z) : M unit := fun this =>
  match counts_ this !! r with
  | None => Undefined (index_out_of_range vec_counts r)
  | Some row =>
      if (c <? length row)%nat
      then Ok tt (set_counts (<[r := <[c := v]> row]> (counts_ this)) this)
      else Undefined (index_out_of_range vec_counts_row c)
  end.

(** ** The algorithms of [<algorithm>] that [TopK] calls

    [std::sort] and [std::nth_element] are specified by the C++ standard
    through their postconditions only; in particular the order of elements
    that compare equivalent is left open.  The interface keeps exactly these
    postconditions, for comparators that are strict weak orderings. *)

Record strict_weak_ordering {A} (comp : A -> A -> bool) : Prop := {
  swo_irreflexive : forall a, comp a a = false;
  swo_transitive : forall a b c, comp a b = true -> comp b c = true -> comp a c = true;
  swo_equivalence : forall a b c,
    comp a b = false -> comp b a = false ->
    comp b c = false -> comp c b = false ->
    comp a c = false /\ comp c a = false
}.

Class StdAlgorithm : Type := {
  std_sort : forall {A}, (A -> A -> bool) -> list A -> list A;
  std_nth_element : forall {A}, (A -> A -> bool) -> nat -> list A -> list A;
  std_sort_permutation : forall A (comp : A -> A -> bool) l,
    std_sort comp l ≡ₚ l;
  std_sort_sorted : forall A (comp : A -> A -> bool) l (i j : nat) x y,
    strict_weak_ordering comp -> (i < j)%nat ->
    std_sort comp l !! i = Some x -> std_sort comp l !! j = Some y ->
    comp y x = false;
  std_nth_element_permutation : forall A (comp : A -> A -> bool) n l,
    std_nth_element comp n l ≡ₚ l;
  std_nth_element_partition : forall A (comp : A -> A -> bool) n l (i j : nat) x y,
    strict_weak_ordering comp -> (i < n)%nat -> (n <= j)%nat ->
    std_nth_element comp n l !! i = Some x ->
    std_nth_element comp n l !! j = Some y ->
    comp y x = false
}.

(** The interface has an implementation: a merge sort for both functions (a
    sorted range is in particular partitioned around every position). *)

(** [x] may stand before [y] in a range sorted by [comp]. *)
Definition not_after {A} (comp : A -> A -> bool) (x y : A) : Prop := comp y x = false.

#[export] Instance not_after_dec {A} (comp : A -> A -> bool) x y :
  Decision (not_after comp x y).
Proof. unfold not_after. apply _. Defined.

Definition sort_by {A} (comp : A -> A -> bool) : list A -> list A :=
  merge_sort (not_after comp).

#[export] Instance merge_sort_algorithms : StdAlgorithm.
Proof.
  assert (Hsorted : forall A (comp : A -> A -> bool) l (i j : nat) x y,
    strict_weak_ordering comp -> (i < j)%nat ->
    sort_by comp l !! i = Some x -> sort_by comp l !! j = Some y ->
    comp y x = false).
  { intros A comp l i j x y Hswo Hij Hi Hj.
    assert (Htotal : Total (not_after comp)).
    { intros a b. unfold not_after.
      destruct (comp b a) eqn:Eba; [|left; reflexivity].
      destruct (comp a b) eqn:Eab; [|right; reflexivity].
      pose proof (swo_transitive _ Hswo a b a Eab Eba) as Haa.
      rewrite (swo_irreflexive _ Hswo) in Haa. discriminate. }
    assert (Htrans : Transitive (not_after comp)).
    { intros a b c Hab Hbc. unfold not_after in *.
      destruct (comp c a) eqn:Eca; [exfalso|reflexivity].
      destruct (comp a b) eqn:Eab.
      { rewrite (swo_transitive _ Hswo c a b Eca Eab) in Hbc. discriminate. }
      destruct (comp b c) eqn:Ebc.
      { rewrite (swo_transitive _ Hswo b c a Ebc Eca) in Hab. discriminate. }
      destruct (swo_equivalence _ Hswo a b c Eab Hab Ebc Hbc) as [_ Hca]. congruence. }
    pose proof (StronglySorted_merge_sort (not_after comp) l) as Hs.
    fold (sort_by comp l) in Hs. rewrite <- (take_drop j (sort_by comp l)) in Hs.
    eapply (StronglySorted_app_1_elem_of (not_after comp)); [exact Hs | |].
    - apply elem_of_take. exists i. split; assumption.
    - apply list_elem_of_lookup. exists O. rewrite lookup_drop, Nat.add_0_r. exact Hj. }
  refine {| std_sort A comp l := sort_by comp l;
            std_nth_element A comp n l := sort_by comp l |}.
  - intros A comp l. apply merge_sort_Permutation.
  - exact Hsorted.
  - intros A comp n l. apply merge_sort_Permutation.
  - intros A comp n l i j x y Hswo Hi Hj. apply Hsorted; [exact Hswo | lia].
Defined.

(** ** Objects for the examples

    The examples at the end use integer keys hashed by the identity and
    hashes combined by exclusive or: one possible choice for the two
    functions the sketch takes from outside. *)

Definition int_hash (k : Z) : Z := k.
Definition xor_combine (l r : Z) : Z := Z.lxor l r.

(** The scenario of the specification: width 10, depth 3, key 1 inserted five
    times and key 2 twice.  With the functions above key 1 falls in columns
    4, 5, 6 of rows 0, 1, 2 and key 2 in columns 7, 6, 5. *)
Definition scenario_items : list Z := [1; 1; 1; 1; 1; 2; 2].

Definition scenario : CountMinSketch :=
  mkCountMinSketch 10 3
    [ [0; 0; 0; 0; 5; 0; 0; 2; 0; 0];
      [0; 0; 0; 0; 0; 5; 2; 0; 0; 0];
      [0; 0; 0; 0; 0; 2; 5; 0; 0; 0] ]
    3 [0; 1; 2].

(** A second sketch of the same dimensions, holding keys 2 and 3. *)
Definition scenario_other : CountMinSketch :=
  mkCountMinSketch 10 3
    [ [0; 0; 0; 0; 0; 0; 1; 1; 0; 0];
      [0; 0; 0; 0; 0; 0; 1; 1; 0; 0];
      [0; 0; 0; 0; 1; 1; 0; 0; 0; 0] ]
    3 [0; 1; 2].

(** The sketch of one counter, holding [v]. *)
Definition one_counter (v : Z) : CountMinSketch :=
  mkCountMinSketch 1 1 [[v]] 1 [0].

(** Two sketches of width 3 and depth 2: key 2 inserted into the first, key 6
    into the second.  Key 1 shares column 0 of row 0 with key 2 and column 1
    of row 1 with key 6. *)
Definition holds_2 : CountMinSketch :=
  mkCountMinSketch 3 2 [[1; 0; 0]; [0; 0; 1]] 2 [0; 1].
Definition holds_6 : CountMinSketch :=
  mkCountMinSketch 3 2 [[0; 0; 1]; [0; 1; 0]] 2 [0; 1].
Definition holds_2_and_6 : CountMinSketch :=
  mkCountMinSketch 3 2 [[1; 0; 1]; [0; 1; 1]] 2 [0; 1].

(** ** The member functions *)

Section Sketch.

Context {KeyType : Type}.

(** [std::hash<KeyType>{}] and [bustub::HashUtil::CombineHashes]. *)
Variable std_hash : KeyType -> Z.
Variable CombineHashes : Z -> Z -> Z.

(** The closure returned by [HashFunction(seed)], called on [item]; [width_]
    is read through the captured [this] when the closure runs. *)
Definition HashFunction (seed : Z) (item : KeyType) : M Z :=
  let h1 := to_size_t (std_hash item) in
  let h2 := to_size_t (CombineHashes seed SEED_BASE) in
  w <- get width_ ;;
  if w =? 0 then undefined remainder_by_zero
  else ret (to_size_t (CombineHashes h1 h2) mod w).

(** [hash_functions_[r](item)] *)
Definition call_hash_function (r : nat) (item : KeyType) : M Z :=
  fs <- get hash_functions_ ;;
  match fs !! r with
  | None => undefined (index_out_of_range vec_hash_functions r)
  | Some seed => HashFunction seed item
  end.

(** [CountMinSketch(uint32_t width, uint32_t depth)] *)
Definition new (width depth : Z) : CountMinSketch :=
  let d := Z.to_nat depth in
  mkCountMinSketch width depth
    (replicate d (replicate (Z.to_nat width) 0))
    d
    ((fun i : nat => Z.of_nat i) <$> seq 0 d).

(** [CountMinSketch(CountMinSketch &&other)]: the new object, then [other] as
    the constructor leaves it.  [hash_functions_] is not in the initializer
    list, so the new object's vector is default-constructed, empty. *)
Definition move_construct (other : CountMinSketch) : CountMinSketch * CountMinSketch :=
  (mkCountMinSketch (width_ other) (depth_ other) (counts_ other)
     (Z.to_nat (depth_ other)) [],
   mkCountMinSketch 0 0 [] (row_locks_ other) (hash_functions_ other)).

(** [auto operator=(CountMinSketch &&other) noexcept -> CountMinSketch &] on
    two different objects: the receiver, then [other], as the operator leaves
    them (when [this == &other] the operator does nothing).  No statement
    assigns [hash_functions_]: the receiver keeps its own vector, whose
    closures read [width_] through the receiver. *)
Definition move_assign (this other : CountMinSketch) : CountMinSketch * CountMinSketch :=
  (mkCountMinSketch (width_ other) (depth_ other) (counts_ other)
     (Z.to_nat (depth_ other)) (hash_functions_ this),
   mkCountMinSketch 0 0 [] (row_locks_ other) (hash_functions_ other)).

(** [void Insert(const KeyType &item)] *)
Definition Insert (item : KeyType) : M unit :=
  depth <- get depth_ ;;
  for_loop (Z.to_nat depth) (fun r _ =>
    col <- call_hash_function r item ;;
    lock_guard r ;;
    v <- read_count r (Z.to_nat col) ;;
    write_count r (Z.to_nat col) (wrap32 (v + 1))) tt.

(** [auto Count(const KeyType &item) const -> uint32_t] *)
Definition Count (item : KeyType) : M Z :=
  depth <- get depth_ ;;
  min_count <- for_loop (Z.to_nat depth) (fun r min_count =>
    col <- call_hash_function r item ;;
    lock_guard r ;;
    v <- read_count r (Z.to_nat col) ;;
    ret (Z.min min_count v)) UINT32_MAX ;;
  ret (if min_count =? UINT32_MAX then 0 else min_count).

(** [void Clear()]; [std::fill] overwrites every element of the row. *)
Definition Clear : M unit :=
  depth <- get depth_ ;;
  for_loop (Z.to_nat depth) (fun r _ =>
    lock_guard r ;;
    g <- get counts_ ;;
    match g !! r with
    | None => undefined (index_out_of_range vec_counts r)
    | Some row => fun this => Ok tt (set_counts (<[r := replicate (length row) 0]> g) this)
    end) tt.

(** Reading [other.counts_[r][c]]; [other] is a [const] reference and no lock
    of it is taken. *)
Definition read_other (other : CountMinSketch) (r c : nat) : M Z :=
  match counts_ other !! r with
  | None => undefined (index_out_of_range vec_other_counts r)
  | Some row =>
      match row !! c with
      | None => undefined (index_out_of_range vec_other_counts_row c)
      | Some v => ret v
      end
  end.

Definition Merge_message : string :=
  "Incompatible CountMinSketch dimensions for merge.".

(** [void Merge(const CountMinSketch<KeyType> &other)] *)
Definition Merge (other : CountMinSketch) : M unit :=
  width <- get width_ ;;
  depth <- get depth_ ;;
  if negb (width =? width_ other) || negb (depth =? depth_ other)
  then throw (invalid_argument Merge_message)
  else
    for_loop (Z.to_nat depth) (fun r _ =>
      lock_guard r ;;
      for_loop (Z.to_nat width) (fun c _ =>
        o <- read_other other r c ;;
        v <- read_count r c ;;
        write_count r c (wrap32 (v + o))) tt) tt.

(** The argument of [Merge] is a reference: it may designate the receiver
    itself.  [Merge_ref] is [Merge] with every access to [other] made through
    the reference, so that [a.Merge(a)] reads the grid it is writing. *)
Inductive sketch_ref : Type :=
| ref_this
| ref_object (other : CountMinSketch).

Definition deref (p : sketch_ref) (this : CountMinSketch) : CountMinSketch :=
  match p with
  | ref_this => this
  | ref_object other => other
  end.

Definition Merge_ref (other : sketch_ref) : M unit :=
  width <- get width_ ;;
  depth <- get depth_ ;;
  other_width <- get (fun this => width_ (deref other this)) ;;
  other_depth <- get (fun this => depth_ (deref other this)) ;;
  if negb (width =? other_width) || negb (depth =? other_depth)
  then throw (invalid_argument Merge_message)
  else
    for_loop (Z.to_nat depth) (fun r _ =>
      lock_guard r ;;
      for_loop (Z.to_nat width) (fun c _ =>
        o <- (fun this => read_other (deref other this) r c this) ;;
        v <- read_count r c ;;
        write_count r c (wrap32 (v + o))) tt) tt.

(** The comparator of [TopK]: [a.second > b.second]. *)
Definition by_count_desc (a b : KeyType * Z) : bool := snd b <? snd a.

(** The loop of [TopK] that fills [all]. *)
Fixpoint count_candidates (candidates : list KeyType) : M (list (KeyType * Z)) :=
  match candidates with
  | [] => ret []
  | item :: rest =>
      c <- Count item ;;
      all <- count_candidates rest ;;
      ret ((item, c) :: all)
  end.

(** [auto TopK(uint16_t k, const std::vector<KeyType> &candidates)] *)
Definition TopK `{StdAlgorithm} (k : Z) (candidates : list KeyType)
  : M (list (KeyType * Z)) :=
  all <- count_candidates candidates ;;
  if Z.of_nat (length all) <=? k
  then ret (std_sort by_count_desc all)
  else
    let all' := std_nth_element by_count_desc (Z.to_nat k) all in
    let top := take (Z.to_nat k) all' in
    ret (std_sort by_count_desc top).

(** A client that inserts the keys of a list, first to last. *)
Fixpoint InsertAll (items : list KeyType) : M unit :=
  match items with
  | [] => ret tt
  | item :: rest => Insert item ;; InsertAll rest
  end.

(** ** Reading the grid *)

(** The counter in row [r], column [c] (0 outside the grid). *)
Definition cell (this : CountMinSketch) (r c : nat) : Z :=
  match counts_ this !! r with
  | Some row => match row !! c with Some v => v | None => 0 end
  | None => 0
  end.

(** The column that the hash function of row [r] gives [item] in a sketch of
    width [w]. *)
Definition column (w : Z) (r : nat) (item : KeyType) : nat :=
  Z.to_nat (to_size_t (CombineHashes (to_size_t (std_hash item))
                         (to_size_t (CombineHashes (Z.of_nat r) SEED_BASE))) mod w).

(** The counters [Count item] reads, row 0 first. *)
Definition selected (this : CountMinSketch) (item : KeyType) : list Z :=
  (fun r => cell this r (column (width_ this) r item))
    <$> seq 0 (Z.to_nat (depth_ this)).

(** The value of [min_count] when the loop of [Count] ends. *)
Definition running_min (cells : list Z) : Z := fold_left Z.min cells UINT32_MAX.

(** How many keys of [items] the hash function of row [r] sends to column [c]. *)
Definition hits (w : Z) (r c : nat) (items : list KeyType) : Z :=
  Z.of_nat (length (filter (fun item => column w r item = c) items)).

(** What [Count item] returns: the running minimum, with the value that also
    serves as the initial [min_count] turned into 0. *)
Definition estimate (this : CountMinSketch) (item : KeyType) : Z :=
  let m := running_min (selected this item) in
  if m =? UINT32_MAX then 0 else m.

(** The pairs [TopK] collects before it selects and sorts. *)
Definition counted (this : CountMinSketch) (candidates : list KeyType)
  : list (KeyType * Z) :=
  (fun key => (key, estimate this key)) <$> candidates.


(** How often [item] occurs in [items]. *)
Definition occurrences `{EqDecision KeyType} (item : KeyType) (items : list KeyType) : Z :=
  Z.of_nat (length (filter (fun k => k = item) items)).

(** [n] copies of [item], for a client that inserts the same key [n] times. *)
Definition times (n : Z) (item : KeyType) : list KeyType :=
  replicate (Z.to_nat n) item.

(** The dimensions of a sketch: the two fields and the shape of the grid. *)
Definition dimensions (this : CountMinSketch) : Z * Z * list nat :=
  (width_ this, depth_ this, length <$> counts_ this).

(** The object with another vector of hash functions. *)
Definition set_hash_functions (h : list Z) (this : CountMinSketch) : CountMinSketch :=
  mkCountMinSketch (width_ this) (depth_ this) (counts_ this) (row_locks_ this) h.

(** An outcome with its final state seen through [f]. *)
Definition lift {A} (f : CountMinSketch -> CountMinSketch) (o : outcome A) : outcome A :=
  match o with
  | Ok a s => Ok a (f s)
  | Throw e s => Throw e (f s)
  | Undefined u => Undefined u
  end.

(** The loop bodies of [Insert] and [Count], named. *)
Definition Insert_row (item : KeyType) (r : nat) (_ : unit) : M unit :=
  col <- call_hash_function r item ;;
  lock_guard r ;;
  v <- read_count r (Z.to_nat col) ;;
  write_count r (Z.to_nat col) (wrap32 (v + 1)).

Definition Count_row (item : KeyType) (r : nat) (min_count : Z) : M Z :=
  col <- call_hash_function r item ;;
  lock_guard r ;;
  v <- read_count r (Z.to_nat col) ;;
  ret (Z.min min_count v).

(** A list of counts in descending order. *)
Definition descending (counts : list Z) : list Z :=
  merge_sort (flip Z.le) counts.

(** ** The class invariant and the reachable states *)

Record wf (this : CountMinSketch) : Prop := {
  wf_width : 0 < width_ this < 4294967296;
  wf_depth : 0 <= depth_ this < 4294967296;
  wf_rows : length (counts_ this) = Z.to_nat (depth_ this);
  wf_cols : forall r row, counts_ this !! r = Some row ->
    length row = Z.to_nat (width_ this);
  wf_cells : forall r c, 0 <= cell this r c < 4294967296;
  wf_locks : row_locks_ this = Z.to_nat (depth_ this);
  wf_hash : hash_functions_ this =
    (fun i : nat => Z.of_nat i) <$> seq 0 (Z.to_nat (depth_ this))
}.

(** Everything but the counters is the same in [s] and [t]. *)
Definition same_frame (s t : CountMinSketch) : Prop :=
  width_ t = width_ s /\ depth_ t = depth_ s /\
  row_locks_ t = row_locks_ s /\ hash_functions_ t = hash_functions_ s.

(** States of a sketch built by the constructor with a positive width and used
    through [Insert], [Clear] and [Merge] (of another such sketch). *)
Inductive reachable : CountMinSketch -> Prop :=
| reachable_new w d :
    0 < w < 4294967296 -> 0 <= d < 4294967296 -> reachable (new w d)
| reachable_Insert s item s' :
    reachable s -> Insert item s = Ok tt s' -> reachable s'
| reachable_Clear s s' :
    reachable s -> Clear s = Ok tt s' -> reachable s'
| reachable_Merge s other s' :
    reachable s -> reachable other -> Merge other s = Ok tt s' -> reachable s'.

(** ** The monad and the loops *)

Lemma bind_Ok {A B} (m : M A) (k : A -> M B) s a s' :
  m s = Ok a s' -> bind m k s = k a s'.
Proof. unfold bind. intros ->. reflexivity. Qed.

(** The invariant rule for [for] loops: an invariant that holds at entry and
    that every iteration re-establishes holds at exit, and the loop returns. *)
Lemma for_from_invariant {A} (P : nat -> A -> CountMinSketch -> Prop) body n :
  forall i acc s,
    P i acc s ->
    (forall j a t, (i <= j < i + n)%nat -> P j a t ->
       exists a' t', body j a t = Ok a' t' /\ P (S j) a' t') ->
    exists a' t', for_from i n body acc s = Ok a' t' /\ P (i + n)%nat a' t'.
Proof.
  induction n as [|n IH]; intros i acc s HP Hstep; simpl.
  - exists acc, s. rewrite Nat.add_0_r. split; [reflexivity | assumption].
  - destruct (Hstep i acc s) as (a' & t' & Hb & HP'); [lia | assumption |].
    destruct (IH (S i) a' t' HP') as (a'' & t'' & Hf & HP'').
    + intros j a t Hj. apply Hstep. lia.
    + exists a'', t''. split.
      * rewrite (bind_Ok _ _ _ _ _ Hb). exact Hf.
      * replace (i + S n)%nat with (S i + n)%nat by lia. exact HP''.
Qed.

Lemma for_loop_invariant {A} (P : nat -> A -> CountMinSketch -> Prop) body n acc s :
  P O acc s ->
  (forall j a t, (j < n)%nat -> P j a t ->
     exists a' t', body j a t = Ok a' t' /\ P (S j) a' t') ->
  exists a' t', for_loop n body acc s = Ok a' t' /\ P n a' t'.
Proof.
  intros H0 Hstep. unfold for_loop.
  destruct (for_from_invariant P body n O acc s H0) as (a' & t' & H & HP).
  - intros j a t Hj. apply Hstep. lia.
  - exists a', t'. split; assumption.
Qed.

(** ** Machine arithmetic *)

Lemma wrap32_range z : 0 <= wrap32 z < 4294967296.
Proof. unfold wrap32. apply Z.mod_pos_bound. lia. Qed.

Lemma wrap32_small z : 0 <= z < 4294967296 -> wrap32 z = z.
Proof. intros H. unfold wrap32. apply Z.mod_small. exact H. Qed.

Lemma wrap32_add_l a b : wrap32 (wrap32 a + b) = wrap32 (a + b).
Proof. unfold wrap32. apply Zplus_mod_idemp_l. Qed.

(** ** One step on a well-formed sketch *)

Lemma same_frame_refl s : same_frame s s.
Proof. repeat split. Qed.

Lemma same_frame_trans s t u : same_frame s t -> same_frame t u -> same_frame s u.
Proof. unfold same_frame. intros (?&?&?&?) (?&?&?&?). repeat split; congruence. Qed.

Lemma column_lt w r item : 0 < w -> (column w r item < Z.to_nat w)%nat.
Proof.
  intros Hw. unfold column.
  pose proof (Z.mod_pos_bound
    (to_size_t (CombineHashes (to_size_t (std_hash item))
                  (to_size_t (CombineHashes (Z.of_nat r) SEED_BASE)))) w Hw).
  lia.
Qed.

Lemma cell_outside s r c :
  wf s -> ~ ((r < Z.to_nat (depth_ s))%nat /\ (c < Z.to_nat (width_ s))%nat) ->
  cell s r c = 0.
Proof.
  intros Hwf Hout. unfold cell.
  destruct (counts_ s !! r) as [row|] eqn:Hr; [|reflexivity].
  destruct (row !! c) as [v|] eqn:Hc; [|reflexivity].
  exfalso. apply Hout. split.
  - rewrite <- (wf_rows _ Hwf). eapply lookup_lt_Some; eassumption.
  - rewrite <- (wf_cols _ Hwf _ _ Hr). eapply lookup_lt_Some; eassumption.
Qed.

Lemma wf_row s r :
  wf s -> (r < Z.to_nat (depth_ s))%nat ->
  exists row, counts_ s !! r = Some row /\ length row = Z.to_nat (width_ s).
Proof.
  intros Hwf Hr.
  destruct (lookup_lt_is_Some_2 (counts_ s) r) as [row Hrow].
  - rewrite (wf_rows _ Hwf). exact Hr.
  - exists row. split; [exact Hrow | exact (wf_cols _ Hwf _ _ Hrow)].
Qed.

Lemma call_hash_function_wf s r item :
  wf s -> (r < Z.to_nat (depth_ s))%nat ->
  exists col, call_hash_function r item s = Ok col s /\
              Z.to_nat col = column (width_ s) r item.
Proof.
  intros Hwf Hr. unfold call_hash_function, bind, get.
  rewrite (wf_hash _ Hwf), list_lookup_fmap, lookup_seq_lt by exact Hr. simpl.
  unfold HashFunction, bind, get.
  pose proof (wf_width _ Hwf) as Hw.
  destruct (width_ s =? 0) eqn:E; [apply Z.eqb_eq in E; lia|].
  eexists. split; [reflexivity|]. reflexivity.
Qed.

Lemma lock_guard_wf s r :
  wf s -> (r < Z.to_nat (depth_ s))%nat -> lock_guard r s = Ok tt s.
Proof.
  intros Hwf Hr. unfold lock_guard. rewrite (wf_locks _ Hwf).
  destruct (Nat.ltb_spec r (Z.to_nat (depth_ s))); [reflexivity | lia].
Qed.

Lemma read_count_wf s r c :
  wf s -> (r < Z.to_nat (depth_ s))%nat -> (c < Z.to_nat (width_ s))%nat ->
  read_count r c s = Ok (cell s r c) s.
Proof.
  intros Hwf Hr Hc. destruct (wf_row s r Hwf Hr) as (row & Hrow & Hlen).
  destruct (lookup_lt_is_Some_2 row c) as [v Hv]; [lia|].
  unfold read_count, cell. rewrite Hrow, Hv. reflexivity.
Qed.

Lemma cell_set_counts s r row c v r' c' :
  counts_ s !! r = Some row -> (c < length row)%nat ->
  cell (set_counts (<[r := <[c := v]> row]> (counts_ s)) s) r' c' =
  if decide (r' = r /\ c' = c) then v else cell s r' c'.
Proof.
  intros Hrow Hc. unfold cell, set_counts. simpl.
  pose proof (lookup_lt_Some _ _ _ Hrow) as Hr.
  destruct (decide (r' = r)) as [->|Hne].
  - rewrite list_lookup_insert_eq by exact Hr. rewrite Hrow.
    destruct (decide (c' = c)) as [->|Hnc].
    + rewrite list_lookup_insert_eq by exact Hc.
      destruct (decide (r = r /\ c = c)) as [_|n]; [reflexivity | exfalso; auto].
    + rewrite list_lookup_insert_ne by congruence.
      destruct (decide (r = r /\ c' = c)) as [[_ ?]|_]; [contradiction | reflexivity].
  - rewrite list_lookup_insert_ne by congruence.
    destruct (decide (r' = r /\ c' = c)) as [[? _]|_]; [contradiction | reflexivity].
Qed.

Lemma write_count_wf s r c v :
  wf s -> (r < Z.to_nat (depth_ s))%nat -> (c < Z.to_nat (width_ s))%nat ->
  0 <= v < 4294967296 ->
  exists s', write_count r c v s = Ok tt s' /\ wf s' /\ same_frame s s' /\
    forall r' c', cell s' r' c' = if decide (r' = r /\ c' = c) then v else cell s r' c'.
Proof.
  intros Hwf Hr Hc Hv. destruct (wf_row s r Hwf Hr) as (row & Hrow & Hlen).
  unfold write_count. rewrite Hrow.
  destruct (Nat.ltb_spec c (length row)) as [Hlt|]; [|lia].
  eexists. split; [reflexivity|].
  assert (Hcell : forall r' c',
    cell (set_counts (<[r := <[c := v]> row]> (counts_ s)) s) r' c' =
    if decide (r' = r /\ c' = c) then v else cell s r' c')
    by (intros; apply cell_set_counts; assumption).
  split; [|split; [repeat split | exact Hcell]].
  constructor; simpl; try apply Hwf.
  - rewrite length_insert. apply Hwf.
  - intros r0 row0 H0. destruct (decide (r0 = r)) as [->|Hne].
    + rewrite list_lookup_insert_eq in H0 by (eapply lookup_lt_Some; eassumption).
      injection H0 as <-. rewrite length_insert. exact Hlen.
    + rewrite list_lookup_insert_ne in H0 by congruence.
      exact (wf_cols _ Hwf _ _ H0).
  - intros r0 c0. rewrite Hcell. destruct (decide _); [exact Hv | apply Hwf].
Qed.

Lemma bind_get {A B} (f : CountMinSketch -> A) (k : A -> M B) s :
  bind (get f) k s = k (f s) s.
Proof. reflexivity. Qed.

Lemma read_other_wf other r c s :
  wf other -> (r < Z.to_nat (depth_ other))%nat -> (c < Z.to_nat (width_ other))%nat ->
  read_other other r c s = Ok (cell other r c) s.
Proof.
  intros Hwf Hr Hc. destruct (wf_row other r Hwf Hr) as (row & Hrow & Hlen).
  destruct (lookup_lt_is_Some_2 row c) as [v Hv]; [lia|].
  unfold read_other, cell. rewrite Hrow, Hv. reflexivity.
Qed.

(** [std::fill(counts_[r].begin(), counts_[r].end(), 0)] on a well-formed sketch. *)
Lemma fill_row_wf s r row :
  wf s -> counts_ s !! r = Some row ->
  let s' := set_counts (<[r := replicate (length row) 0]> (counts_ s)) s in
  wf s' /\ same_frame s s' /\
  forall r' c', cell s' r' c' = if decide (r' = r) then 0 else cell s r' c'.
Proof.
  intros Hwf Hrow s'.
  pose proof (lookup_lt_Some _ _ _ Hrow) as Hr.
  assert (Hcell : forall r' c',
    cell s' r' c' = if decide (r' = r) then 0 else cell s r' c').
  { intros r' c'. unfold cell, s', set_counts. simpl.
    destruct (decide (r' = r)) as [->|Hne].
    - rewrite list_lookup_insert_eq by exact Hr.
      destruct (replicate (length row) 0 !! c') as [v|] eqn:E; [|reflexivity].
      apply lookup_replicate in E. destruct E as [-> _]. reflexivity.
    - rewrite list_lookup_insert_ne by congruence. reflexivity. }
  split; [|split; [repeat split | exact Hcell]].
  constructor; simpl; try apply Hwf.
  - rewrite length_insert. apply Hwf.
  - intros r0 row0 H0. destruct (decide (r0 = r)) as [->|Hne].
    + rewrite list_lookup_insert_eq in H0 by exact Hr.
      injection H0 as <-. rewrite length_replicate. exact (wf_cols _ Hwf _ _ Hrow).
    + rewrite list_lookup_insert_ne in H0 by congruence.
      exact (wf_cols _ Hwf _ _ H0).
  - intros r0 c0. rewrite Hcell. destruct (decide _); [lia | apply Hwf].
Qed.

(** ** What each member function does to a well-formed sketch *)

Lemma new_wf w d :
  0 < w < 4294967296 -> 0 <= d < 4294967296 -> wf (new w d).
Proof.
  intros Hw Hd. constructor; simpl; try assumption; try reflexivity.
  - apply length_replicate.
  - intros r row H. apply lookup_replicate in H. destruct H as [-> _].
    apply length_replicate.
  - intros r c. unfold cell, new. simpl.
    destruct (replicate (Z.to_nat d) (replicate (Z.to_nat w) 0) !! r) as [row|] eqn:E; [|lia].
    apply lookup_replicate in E. destruct E as [-> _].
    destruct (replicate (Z.to_nat w) 0 !! c) as [v|] eqn:E; [|lia].
    apply lookup_replicate in E. destruct E as [-> _]. lia.
Qed.

Lemma new_cell w d r c : cell (new w d) r c = 0.
Proof.
  unfold cell, new. simpl.
  destruct (replicate (Z.to_nat d) (replicate (Z.to_nat w) 0) !! r) as [row|] eqn:E;
    [|reflexivity].
  apply lookup_replicate in E. destruct E as [-> _].
  destruct (replicate (Z.to_nat w) 0 !! c) as [v|] eqn:E; [|reflexivity].
  apply lookup_replicate in E. destruct E as [-> _]. reflexivity.
Qed.

Lemma Insert_wf s item :
  wf s ->
  exists s', Insert item s = Ok tt s' /\ wf s' /\ same_frame s s' /\
    forall r c, cell s' r c =
      if decide ((r < Z.to_nat (depth_ s))%nat /\ c = column (width_ s) r item)
      then wrap32 (cell s r c + 1) else cell s r c.
Proof.
  intros Hwf. unfold Insert. rewrite bind_get.
  set (P := fun (j : nat) (_ : unit) (t : CountMinSketch) =>
    wf t /\ same_frame s t /\
    forall r c, cell t r c =
      if decide ((r < j)%nat /\ c = column (width_ s) r item)
      then wrap32 (cell s r c + 1) else cell s r c).
  match goal with |- context [for_loop ?n ?b ?a] =>
    destruct (for_loop_invariant P b n a s) as ([] & s' & Hrun & HP) end.
  - split; [exact Hwf | split; [apply same_frame_refl |]].
    intros r c. destruct (decide _) as [[? _]|_]; [lia | reflexivity].
  - intros j [] t Hj (Hwt & Hfr & Hcell).
    pose proof Hfr as (Hw & Hd & _).
    assert (Hjt : (j < Z.to_nat (depth_ t))%nat) by (rewrite Hd; exact Hj).
    destruct (call_hash_function_wf t j item Hwt Hjt) as (col & Hcall & Hcol).
    rewrite Hw in Hcol.
    assert (Hlt : (Z.to_nat col < Z.to_nat (width_ t))%nat).
    { rewrite Hcol, Hw. apply column_lt. apply Hwf. }
    rewrite (bind_Ok _ _ _ _ _ Hcall).
    rewrite (bind_Ok _ _ _ _ _ (lock_guard_wf t j Hwt Hjt)).
    rewrite (bind_Ok _ _ _ _ _ (read_count_wf t j _ Hwt Hjt Hlt)).
    destruct (write_count_wf t j (Z.to_nat col) (wrap32 (cell t j (Z.to_nat col) + 1))
                Hwt Hjt Hlt (wrap32_range _)) as (t' & Hwr & Hwt' & Hfr' & Hcell').
    exists tt, t'. split; [exact Hwr|].
    split; [exact Hwt' | split; [eapply same_frame_trans; eassumption|]].
    intros r c. rewrite Hcell', !Hcell, Hcol.
    destruct (decide (r = j /\ c = column (width_ s) j item)) as [[-> ->]|Hn].
    + destruct (decide ((j < j)%nat /\ _)) as [[? _]|_]; [lia|].
      destruct (decide ((j < S j)%nat /\ _)) as [_|n]; [reflexivity|].
      exfalso. apply n. split; [lia | reflexivity].
    + destruct (decide ((r < j)%nat /\ _)) as [[? ?]|n1];
        destruct (decide ((r < S j)%nat /\ _)) as [[? ?]|n2]; try reflexivity.
      * exfalso. apply n2. split; [lia | assumption].
      * exfalso. assert (r = j) by lia. subst r. apply Hn. split; [reflexivity | assumption].
  - exists s'. split; [exact Hrun | exact HP].
Qed.

Lemma selected_lookup s item j :
  (j < Z.to_nat (depth_ s))%nat ->
  selected s item !! j = Some (cell s j (column (width_ s) j item)).
Proof.
  intros Hj. unfold selected. rewrite list_lookup_fmap, lookup_seq_lt by exact Hj.
  reflexivity.
Qed.

Lemma selected_length s item : length (selected s item) = Z.to_nat (depth_ s).
Proof. unfold selected. rewrite length_fmap, length_seq. reflexivity. Qed.

(** [Count] returns, leaves the object as it was, and its value is the
    running minimum with the sentinel replaced by 0. *)
Lemma Count_wf s item :
  wf s -> Count item s = Ok (estimate s item) s.
Proof.
  intros Hwf. unfold Count, estimate. rewrite bind_get.
  set (P := fun (j : nat) (m : Z) (t : CountMinSketch) =>
    t = s /\ m = fold_left Z.min (take j (selected s item)) UINT32_MAX).
  match goal with |- context [for_loop ?n ?b ?a] =>
    destruct (for_loop_invariant P b n a s) as (m & s' & Hrun & -> & Hm) end.
  - split; reflexivity.
  - intros j m t Hj (-> & ->).
    destruct (call_hash_function_wf s j item Hwf Hj) as (col & Hcall & Hcol).
    assert (Hlt : (Z.to_nat col < Z.to_nat (width_ s))%nat).
    { rewrite Hcol. apply column_lt. apply Hwf. }
    rewrite (bind_Ok _ _ _ _ _ Hcall).
    rewrite (bind_Ok _ _ _ _ _ (lock_guard_wf s j Hwf Hj)).
    rewrite (bind_Ok _ _ _ _ _ (read_count_wf s j _ Hwf Hj Hlt)).
    eexists _, s. split; [reflexivity|]. split; [reflexivity|].
    rewrite (take_S_r _ _ _ (selected_lookup s item j Hj)), fold_left_app, Hcol.
    reflexivity.
  - rewrite (bind_Ok _ _ _ _ _ Hrun). unfold ret.
    rewrite take_ge in Hm by (rewrite selected_length; lia).
    unfold running_min. rewrite <- Hm. reflexivity.
Qed.

Lemma Clear_wf s :
  wf s ->
  exists s', Clear s = Ok tt s' /\ wf s' /\ same_frame s s' /\
    forall r c, cell s' r c = 0.
Proof.
  intros Hwf. unfold Clear. rewrite bind_get.
  set (P := fun (j : nat) (_ : unit) (t : CountMinSketch) =>
    wf t /\ same_frame s t /\
    forall r c, cell t r c = if decide (r < j)%nat then 0 else cell s r c).
  match goal with |- context [for_loop ?n ?b ?a] =>
    destruct (for_loop_invariant P b n a s) as ([] & s' & Hrun & Hwf' & Hfr & Hcell) end.
  - split; [exact Hwf | split; [apply same_frame_refl |]].
    intros r c. destruct (decide _); [lia | reflexivity].
  - intros j [] t Hj (Hwt & Hfr & Hcell).
    pose proof Hfr as (Hw & Hd & _).
    assert (Hjt : (j < Z.to_nat (depth_ t))%nat) by (rewrite Hd; exact Hj).
    rewrite (bind_Ok _ _ _ _ _ (lock_guard_wf t j Hwt Hjt)). rewrite bind_get.
    destruct (wf_row t j Hwt Hjt) as (row & Hrow & _). rewrite Hrow.
    destruct (fill_row_wf t j row Hwt Hrow) as (Hwt' & Hfr' & Hcell').
    eexists tt, _. split; [reflexivity|].
    split; [exact Hwt' | split; [eapply same_frame_trans; eassumption|]].
    intros r c. rewrite Hcell', Hcell.
    destruct (decide (r = j)); destruct (decide (r < j)%nat);
      destruct (decide (r < S j)%nat); try reflexivity; lia.
  - exists s'. split; [exact Hrun|]. split; [exact Hwf' | split; [exact Hfr|]].
    intros r c. rewrite Hcell. destruct (decide _) as [|Hn]; [reflexivity|].
    apply cell_outside; [exact Hwf | intros [? _]; contradiction].
Qed.

(** A mismatch of dimensions is found before anything is written. *)
Lemma Merge_mismatch s other :
  width_ s <> width_ other \/ depth_ s <> depth_ other ->
  Merge other s = Throw (invalid_argument Merge_message) s.
Proof.
  intros H. unfold Merge. rewrite !bind_get.
  destruct (Z.eqb_spec (width_ s) (width_ other));
    destruct (Z.eqb_spec (depth_ s) (depth_ other)); simpl; try reflexivity.
  destruct H; contradiction.
Qed.

(** The inner loop of [Merge]: row [j] of [other] is added to row [j]. *)
Lemma Merge_row s other j :
  wf s -> wf other ->
  width_ other = width_ s -> depth_ other = depth_ s ->
  (j < Z.to_nat (depth_ s))%nat ->
  exists s',
    for_loop (Z.to_nat (width_ s)) (fun c (_ : unit) =>
      o <- read_other other j c ;;
      v <- read_count j c ;;
      write_count j c (wrap32 (v + o))) tt s = Ok tt s' /\
    wf s' /\ same_frame s s' /\
    forall r c, cell s' r c =
      if decide (r = j /\ (c < Z.to_nat (width_ s))%nat)
      then wrap32 (cell s r c + cell other r c) else cell s r c.
Proof.
  intros Hwf Hwo Hw Hd Hj.
  set (Q := fun (k : nat) (_ : unit) (u : CountMinSketch) =>
    wf u /\ same_frame s u /\
    forall r c, cell u r c =
      if decide (r = j /\ (c < k)%nat)
      then wrap32 (cell s r c + cell other r c) else cell s r c).
  match goal with |- context [for_loop ?n ?b ?a] =>
    destruct (for_loop_invariant Q b n a s) as ([] & s' & Hrun & HQ) end.
  - split; [exact Hwf | split; [apply same_frame_refl |]].
    intros r c. destruct (decide _) as [[_ ?]|_]; [lia | reflexivity].
  - intros k [] u Hk (Hwu & Hfr & Hcell).
    pose proof Hfr as (Hw' & Hd' & _).
    assert (Hju : (j < Z.to_nat (depth_ u))%nat) by (rewrite Hd'; exact Hj).
    assert (Hku : (k < Z.to_nat (width_ u))%nat) by (rewrite Hw'; exact Hk).
    rewrite (bind_Ok _ _ _ _ _ (read_other_wf other j k u Hwo
               ltac:(rewrite Hd; exact Hj) ltac:(rewrite Hw; exact Hk))).
    rewrite (bind_Ok _ _ _ _ _ (read_count_wf u j k Hwu Hju Hku)).
    destruct (write_count_wf u j k (wrap32 (cell u j k + cell other j k))
                Hwu Hju Hku (wrap32_range _)) as (u' & Hwr & Hwu' & Hfr' & Hcell').
    exists tt, u'. split; [exact Hwr|].
    split; [exact Hwu' | split; [eapply same_frame_trans; eassumption|]].
    intros r c. rewrite Hcell', !Hcell.
    destruct (decide (r = j /\ c = k)) as [[Hr Hc]|Hn].
    + subst r c. destruct (decide (j = j /\ (k < k)%nat)) as [[_ ?]|_]; [lia|].
      destruct (decide (j = j /\ (k < S k)%nat)) as [_|n]; [reflexivity|].
      exfalso. apply n. split; [reflexivity | lia].
    + destruct (decide (r = j /\ (c < k)%nat)) as [[? ?]|n1];
        destruct (decide (r = j /\ (c < S k)%nat)) as [[? ?]|n2]; try reflexivity.
      * exfalso. apply n2. split; [assumption | lia].
      * exfalso. assert (c = k) by lia. apply Hn. split; assumption.
  - exists s'. split; [exact Hrun | exact HQ].
Qed.

(** [Merge] of two well-formed sketches of the same dimensions adds the grids
    cell by cell, modulo [2^32]. *)
Lemma Merge_wf s other :
  wf s -> wf other ->
  width_ other = width_ s -> depth_ other = depth_ s ->
  exists s', Merge other s = Ok tt s' /\ wf s' /\ same_frame s s' /\
    forall r c, cell s' r c = wrap32 (cell s r c + cell other r c).
Proof.
  intros Hwf Hwo Hw Hd. unfold Merge. rewrite !bind_get.
  rewrite <- Hw, <- Hd, !Z.eqb_refl. simpl. rewrite Hw, Hd.
  set (P := fun (j : nat) (_ : unit) (t : CountMinSketch) =>
    wf t /\ same_frame s t /\
    forall r c, cell t r c =
      if decide (r < j)%nat then wrap32 (cell s r c + cell other r c) else cell s r c).
  match goal with |- context [for_loop ?n ?b ?a] =>
    destruct (for_loop_invariant P b n a s) as ([] & s' & Hrun & Hwf' & Hfr & Hcell) end.
  - split; [exact Hwf | split; [apply same_frame_refl |]].
    intros r c. destruct (decide _); [lia | reflexivity].
  - intros j [] t Hj (Hwt & Hfr & Hcell).
    pose proof Hfr as (Hw' & Hd' & _).
    assert (Hjt : (j < Z.to_nat (depth_ t))%nat) by (rewrite Hd'; exact Hj).
    rewrite (bind_Ok _ _ _ _ _ (lock_guard_wf t j Hwt Hjt)).
    destruct (Merge_row t other j Hwt Hwo) as (t' & Hrow & Hwt' & Hfr' & Hcell');
      [congruence | congruence | exact Hjt |].
    rewrite Hw' in Hrow. exists tt, t'. split; [exact Hrow|].
    split; [exact Hwt' | split; [eapply same_frame_trans; eassumption|]].
    intros r c. rewrite Hcell', !Hcell, Hw'.
    destruct (decide (r = j /\ (c < Z.to_nat (width_ s))%nat)) as [[Hr Hc]|Hn].
    + subst r. destruct (decide (j < j)%nat); [lia|].
      destruct (decide (j < S j)%nat); [reflexivity | lia].
    + destruct (decide (r < j)%nat); destruct (decide (r < S j)%nat);
        try reflexivity; try lia.
      assert (r = j) by lia. subst r.
      assert (Hout : ~ (c < Z.to_nat (width_ s))%nat) by (intros ?; apply Hn; auto).
      rewrite (cell_outside s j c Hwf), (cell_outside other j c Hwo);
        [reflexivity | rewrite Hw; tauto | tauto].
  - exists s'. split; [exact Hrun|]. split; [exact Hwf' | split; [exact Hfr|]].
    intros r c. rewrite Hcell. destruct (decide _) as [|Hn]; [reflexivity|].
    rewrite (cell_outside s r c Hwf), (cell_outside other r c Hwo);
      [reflexivity | rewrite Hd; tauto | tauto].
Qed.

(** Every reachable state satisfies the class invariant. *)
Lemma reachable_wf s : reachable s -> wf s.
Proof.
  induction 1 as [w d Hw Hd | s item s' _ IH Hrun | s s' _ IH Hrun
                 | s other s' _ IHs _ IHo Hrun].
  - apply new_wf; assumption.
  - destruct (Insert_wf s item IH) as (t & Ht & Hwt & _). congruence.
  - destruct (Clear_wf s IH) as (t & Ht & Hwt & _). congruence.
  - destruct (Z.eq_dec (width_ s) (width_ other)) as [Hw|Hw];
      [destruct (Z.eq_dec (depth_ s) (depth_ other)) as [Hd|Hd]|].
    + destruct (Merge_wf s other IHs IHo) as (t & Ht & Hwt & _); congruence.
    + rewrite Merge_mismatch in Hrun by (right; exact Hd). discriminate.
    + rewrite Merge_mismatch in Hrun by (left; exact Hw). discriminate.
Qed.

(** ** The running minimum *)

Lemma fold_min_le_init l : forall a, fold_left Z.min l a <= a.
Proof.
  induction l as [|v l IH]; intros a; simpl; [lia|].
  specialize (IH (Z.min a v)). lia.
Qed.

Lemma fold_min_le_elem l : forall a v, v ∈ l -> fold_left Z.min l a <= v.
Proof.
  induction l as [|w l IH]; intros a v Hv; simpl.
  - inversion Hv.
  - apply elem_of_cons in Hv. destruct Hv as [->|Hv].
    + pose proof (fold_min_le_init l (Z.min a w)). lia.
    + apply IH. exact Hv.
Qed.

Lemma fold_min_attained l : forall a,
  fold_left Z.min l a = a \/ fold_left Z.min l a ∈ l.
Proof.
  induction l as [|w l IH]; intros a; simpl; [left; reflexivity|].
  destruct (IH (Z.min a w)) as [E|E].
  - rewrite E. destruct (Z.min_spec a w) as [[_ ->]|[_ ->]];
      [left; reflexivity | right; apply elem_of_cons; left; reflexivity].
  - right. apply elem_of_cons. right. exact E.
Qed.

Lemma elem_of_selected s item v :
  v ∈ selected s item <->
  exists r, (r < Z.to_nat (depth_ s))%nat /\ v = cell s r (column (width_ s) r item).
Proof.
  unfold selected. rewrite list_elem_of_fmap. split.
  - intros (r & -> & Hr). apply elem_of_seq in Hr. exists r. split; [lia | reflexivity].
  - intros (r & Hr & ->). exists r. split; [reflexivity|]. apply elem_of_seq. lia.
Qed.

Lemma selected_nil s item : depth_ s <= 0 -> selected s item = [].
Proof.
  intros H. unfold selected. replace (Z.to_nat (depth_ s)) with O by lia. reflexivity.
Qed.

Lemma estimate_no_rows s item : depth_ s <= 0 -> estimate s item = 0.
Proof. intros H. unfold estimate. rewrite selected_nil by exact H. reflexivity. Qed.

(** When every selected counter is below the sentinel, [Count] returns their
    minimum. *)
Lemma estimate_below_sentinel s item :
  0 < depth_ s ->
  (forall r, (r < Z.to_nat (depth_ s))%nat ->
     cell s r (column (width_ s) r item) < UINT32_MAX) ->
  estimate s item = running_min (selected s item) /\
  running_min (selected s item) ∈ selected s item.
Proof.
  intros Hd Hlt. unfold estimate, running_min.
  destruct (fold_min_attained (selected s item) UINT32_MAX) as [E|E].
  - exfalso.
    assert (H0 : (0 < Z.to_nat (depth_ s))%nat) by lia.
    pose proof (fold_min_le_elem (selected s item) UINT32_MAX _
      (proj2 (elem_of_selected s item _) (ex_intro _ O (conj H0 eq_refl)))) as Hle.
    specialize (Hlt O H0). lia.
  - split; [|exact E].
    apply elem_of_selected in E. destruct E as (r & Hr & E).
    specialize (Hlt r Hr).
    destruct (Z.eqb_spec (fold_left Z.min (selected s item) UINT32_MAX) UINT32_MAX);
      [lia | reflexivity].
Qed.

Lemma estimate_lower s item lo :
  0 < depth_ s ->
  (forall r, (r < Z.to_nat (depth_ s))%nat ->
     lo <= cell s r (column (width_ s) r item) < UINT32_MAX) ->
  lo <= estimate s item.
Proof.
  intros Hd H.
  destruct (estimate_below_sentinel s item Hd) as (-> & Hin).
  - intros r Hr. apply H. exact Hr.
  - apply elem_of_selected in Hin. destruct Hin as (r & Hr & ->). apply H. exact Hr.
Qed.

Lemma estimate_upper s item r :
  0 < depth_ s ->
  (forall r, (r < Z.to_nat (depth_ s))%nat ->
     cell s r (column (width_ s) r item) < UINT32_MAX) ->
  (r < Z.to_nat (depth_ s))%nat ->
  estimate s item <= cell s r (column (width_ s) r item).
Proof.
  intros Hd H Hr.
  destruct (estimate_below_sentinel s item Hd H) as (-> & _).
  apply fold_min_le_elem. apply elem_of_selected. exists r. split; [exact Hr | reflexivity].
Qed.

(** ** A run of insertions *)

Lemma hits_nonneg w r c items : 0 <= hits w r c items.
Proof. unfold hits. lia. Qed.

Lemma hits_le_length w r c items : hits w r c items <= Z.of_nat (length items).
Proof.
  unfold hits.
  pose proof (length_filter (fun item => column w r item = c) items). lia.
Qed.

Lemma hits_cons w r c item items :
  hits w r c (item :: items) =
  (if decide (column w r item = c) then 1 else 0) + hits w r c items.
Proof.
  unfold hits. rewrite filter_cons. destruct (decide _); simpl; lia.
Qed.

Lemma hits_replicate w r c n item :
  hits w r c (replicate n item) =
  if decide (column w r item = c) then Z.of_nat n else 0.
Proof.
  induction n as [|n IH].
  - destruct (decide _); reflexivity.
  - change (replicate (S n) item) with (item :: replicate n item).
    rewrite hits_cons, IH. destruct (decide _); lia.
Qed.

(** After a run of insertions every counter has grown, modulo [2^32], by the
    number of inserted keys that its row's hash function sends to it. *)
Lemma InsertAll_wf items : forall s,
  wf s ->
  exists s', InsertAll items s = Ok tt s' /\ wf s' /\ same_frame s s' /\
    forall r c, (r < Z.to_nat (depth_ s))%nat ->
      cell s' r c = wrap32 (cell s r c + hits (width_ s) r c items).
Proof.
  induction items as [|item items IH]; intros s Hwf.
  - exists s. split; [reflexivity|]. split; [exact Hwf|]. split; [apply same_frame_refl|].
    intros r c _. unfold hits. simpl. rewrite Z.add_0_r.
    symmetry. apply wrap32_small. apply Hwf.
  - destruct (Insert_wf s item Hwf) as (s1 & H1 & Hwf1 & Hfr1 & Hcell1).
    destruct (IH s1 Hwf1) as (s' & H' & Hwf' & Hfr' & Hcell').
    exists s'. split; [simpl; rewrite (bind_Ok _ _ _ _ _ H1); exact H'|].
    split; [exact Hwf'|]. split; [eapply same_frame_trans; eassumption|].
    destruct Hfr1 as (Hw1 & Hd1 & _).
    intros r c Hr. rewrite Hcell' by (rewrite Hd1; exact Hr).
    rewrite Hcell1, Hw1, hits_cons.
    destruct (decide ((r < Z.to_nat (depth_ s))%nat /\ c = column (width_ s) r item))
      as [[_ ->]|Hn].
    + destruct (decide (column (width_ s) r item = column (width_ s) r item));
        [|contradiction].
      rewrite wrap32_add_l. f_equal. lia.
    + destruct (decide (column (width_ s) r item = c)) as [<-|_].
      * exfalso. apply Hn. split; [exact Hr | reflexivity].
      * reflexivity.
Qed.

Lemma occurrences_replicate `{EqDecision KeyType} n (item : KeyType) :
  occurrences item (replicate n item) = Z.of_nat n.
Proof.
  unfold occurrences. induction n as [|n IH]; [reflexivity|].
  change (replicate (S n) item) with (item :: replicate n item).
  rewrite filter_cons_True by reflexivity. simpl length. lia.
Qed.

Lemma occurrences_le_hits `{EqDecision KeyType} w r (item : KeyType) items :
  occurrences item items <= hits w r (column w r item) items.
Proof.
  unfold occurrences, hits. induction items as [|k items IH]; [reflexivity|].
  rewrite !filter_cons.
  destruct (decide (k = item)) as [->|_].
  - destruct (decide (column w r item = column w r item)); [|contradiction].
    simpl length. lia.
  - destruct (decide (column w r k = column w r item)); simpl length; lia.
Qed.

Lemma estimate_zero s item :
  0 <= depth_ s ->
  (forall r, (r < Z.to_nat (depth_ s))%nat -> cell s r (column (width_ s) r item) = 0) ->
  estimate s item = 0.
Proof.
  intros Hd H. destruct (Z.eq_dec (depth_ s) 0) as [E|E].
  - apply estimate_no_rows. lia.
  - destruct (estimate_below_sentinel s item) as (-> & Hin); [lia | |].
    + intros r Hr. rewrite H by exact Hr. reflexivity.
    + apply elem_of_selected in Hin. destruct Hin as (r & Hr & ->). apply H. exact Hr.
Qed.

(** The shape of the grid of a well-formed sketch is fixed by its two fields. *)
Lemma wf_dimensions s s' :
  wf s -> wf s' -> same_frame s s' -> dimensions s' = dimensions s.
Proof.
  intros Hwf Hwf' (Hw & Hd & _). unfold dimensions. rewrite Hw, Hd. f_equal.
  assert (Hshape : forall t, wf t ->
    length <$> counts_ t = replicate (Z.to_nat (depth_ t)) (Z.to_nat (width_ t))).
  { intros t Ht. symmetry. apply replicate_as_elem_of. split.
    - rewrite length_fmap. apply Ht.
    - intros n Hn. apply list_elem_of_fmap in Hn. destruct Hn as (row & -> & Hrow).
      apply list_elem_of_lookup in Hrow. destruct Hrow as (i & Hi).
      exact (wf_cols _ Ht _ _ Hi). }
  rewrite (Hshape s Hwf), (Hshape s' Hwf'), Hw, Hd. reflexivity.
Qed.

(** ** The claims about [Insert], [Count], [Clear] and [Merge] *)

(** C1 (as amended).  Take a sketch with at least one row whose counters are
    all zero (just constructed or just cleared) and insert a list of keys.  If
    in every row fewer than [2^32 - 1] of the inserted keys fall on the
    counter selected for [item] (so, in particular, if fewer than [2^32 - 1]
    keys are inserted), [Count item] returns at least the number of times
    [item] was inserted. *)
Theorem Count_no_underestimate_below_sentinel `{EqDecision KeyType}
    s (items : list KeyType) item :
  reachable s -> (forall r c, cell s r c = 0) -> 0 < depth_ s ->
  (forall r, (r < Z.to_nat (depth_ s))%nat ->
     hits (width_ s) r (column (width_ s) r item) items < UINT32_MAX) ->
  exists s' n, InsertAll items s = Ok tt s' /\ Count item s' = Ok n s' /\
    occurrences item items <= n.
Proof.
  intros Hreach Hzero Hd Hroom. pose proof (reachable_wf s Hreach) as Hwf.
  destruct (InsertAll_wf items s Hwf) as (s' & Hrun & Hwf' & (Hw & Hd' & _) & Hcell).
  exists s', (estimate s' item). split; [exact Hrun|]. split; [apply Count_wf; exact Hwf'|].
  apply estimate_lower; [lia|]. rewrite Hd', Hw. intros r Hr.
  rewrite Hcell, Hzero by exact Hr. simpl.
  pose proof (hits_nonneg (width_ s) r (column (width_ s) r item) items).
  pose proof (occurrences_le_hits (width_ s) r item items).
  specialize (Hroom r Hr).
  unfold UINT32_MAX in *. rewrite wrap32_small by lia. lia.
Qed.

(** C6 (as amended).  Across a run of insertions during which every counter
    selected for [item] stays below [2^32 - 1], the value of [Count item]
    does not decrease. *)
Theorem Count_monotone_below_sentinel s (items : list KeyType) item :
  reachable s ->
  (forall r, (r < Z.to_nat (depth_ s))%nat ->
     cell s r (column (width_ s) r item)
     + hits (width_ s) r (column (width_ s) r item) items < UINT32_MAX) ->
  exists s' a b, InsertAll items s = Ok tt s' /\
    Count item s = Ok a s /\ Count item s' = Ok b s' /\ a <= b.
Proof.
  intros Hreach Hroom. pose proof (reachable_wf s Hreach) as Hwf.
  destruct (InsertAll_wf items s Hwf) as (s' & Hrun & Hwf' & (Hw & Hd' & _) & Hcell).
  exists s', (estimate s item), (estimate s' item).
  split; [exact Hrun|]. split; [apply Count_wf; exact Hwf|].
  split; [apply Count_wf; exact Hwf'|].
  destruct (Z.eq_dec (depth_ s) 0) as [E|E].
  - rewrite !estimate_no_rows by lia. lia.
  - pose proof (wf_depth _ Hwf) as Hrange.
    assert (Hbelow : forall r, (r < Z.to_nat (depth_ s))%nat ->
              cell s r (column (width_ s) r item) < UINT32_MAX).
    { intros r Hr. specialize (Hroom r Hr).
      pose proof (hits_nonneg (width_ s) r (column (width_ s) r item) items). lia. }
    apply estimate_lower; [lia|]. rewrite Hd', Hw. intros r Hr.
    rewrite Hcell by exact Hr.
    pose proof (estimate_upper s item r ltac:(lia) Hbelow Hr).
    pose proof (hits_nonneg (width_ s) r (column (width_ s) r item) items).
    pose proof (wf_cells _ Hwf r (column (width_ s) r item)).
    specialize (Hroom r Hr).
    unfold UINT32_MAX in *. rewrite wrap32_small by lia. lia.
Qed.

(** C2 (as amended).  A successful merge of two sketches of the same
    dimensions makes every counter of the receiver the sum, modulo [2^32], of
    the two counters.  For a key whose summed selected counters all stay below
    [2^32 - 1], [Count] after the merge is at least the sum of the two earlier
    values, and exactly that sum when the sketches have one row. *)
Theorem Merge_adds_cells a b :
  reachable a -> reachable b -> width_ b = width_ a -> depth_ b = depth_ a ->
  exists a', Merge b a = Ok tt a' /\
    (forall r c, cell a' r c = wrap32 (cell a r c + cell b r c)) /\
    forall item, exists ca cb ca',
      Count item a = Ok ca a /\ Count item b = Ok cb b /\ Count item a' = Ok ca' a' /\
      ((forall r, (r < Z.to_nat (depth_ a))%nat ->
          cell a r (column (width_ a) r item) + cell b r (column (width_ a) r item)
          < UINT32_MAX) ->
       ca + cb <= ca' /\ (depth_ a = 1 -> ca' = ca + cb)).
Proof.
  intros Ha Hb Hw Hd.
  pose proof (reachable_wf a Ha) as Hwa. pose proof (reachable_wf b Hb) as Hwb.
  destruct (Merge_wf a b Hwa Hwb Hw Hd) as (a' & Hrun & Hwa' & (Hw' & Hd' & _) & Hcell).
  exists a'. split; [exact Hrun|]. split; [exact Hcell|].
  intros item. exists (estimate a item), (estimate b item), (estimate a' item).
  split; [apply Count_wf; exact Hwa|]. split; [apply Count_wf; exact Hwb|].
  split; [apply Count_wf; exact Hwa'|]. intros Hsum.
  destruct (Z.eq_dec (depth_ a) 0) as [E|E].
  { rewrite !estimate_no_rows by lia. split; lia. }
  pose proof (wf_depth _ Hwa) as Hrange.
  assert (Hda : 0 < depth_ a) by lia.
  assert (Hbelow_a : forall r, (r < Z.to_nat (depth_ a))%nat ->
            cell a r (column (width_ a) r item) < UINT32_MAX).
  { intros r Hr. specialize (Hsum r Hr).
    pose proof (wf_cells _ Hwb r (column (width_ a) r item)). lia. }
  assert (Hbelow_b : forall r, (r < Z.to_nat (depth_ b))%nat ->
            cell b r (column (width_ b) r item) < UINT32_MAX).
  { rewrite Hd, Hw. intros r Hr. specialize (Hsum r Hr).
    pose proof (wf_cells _ Hwa r (column (width_ a) r item)). lia. }
  assert (Hcell_sum : forall r, (r < Z.to_nat (depth_ a))%nat ->
            cell a' r (column (width_ a) r item) =
            cell a r (column (width_ a) r item) + cell b r (column (width_ a) r item)).
  { intros r Hr. rewrite Hcell. specialize (Hsum r Hr).
    pose proof (wf_cells _ Hwa r (column (width_ a) r item)).
    pose proof (wf_cells _ Hwb r (column (width_ a) r item)).
    unfold UINT32_MAX in *. apply wrap32_small. lia. }
  assert (Hlower : estimate a item + estimate b item <= estimate a' item).
  { apply estimate_lower; [lia|]. rewrite Hd', Hw'. intros r Hr.
    rewrite (Hcell_sum r Hr).
    pose proof (estimate_upper a item r Hda Hbelow_a Hr).
    pose proof (estimate_upper b item r ltac:(lia) Hbelow_b ltac:(rewrite Hd; exact Hr)) as Hub.
    rewrite Hw in Hub. specialize (Hsum r Hr). lia. }
  split; [exact Hlower|]. intros Hone.
  assert (H0 : (0 < Z.to_nat (depth_ a))%nat) by lia.
  assert (Hbelow_a' : forall r, (r < Z.to_nat (depth_ a'))%nat ->
            cell a' r (column (width_ a') r item) < UINT32_MAX).
  { rewrite Hd', Hw'. intros r Hr. rewrite (Hcell_sum r Hr). apply Hsum. exact Hr. }
  pose proof (estimate_upper a' item O ltac:(lia) Hbelow_a' ltac:(rewrite Hd'; exact H0)) as Hup.
  rewrite Hw', (Hcell_sum O H0) in Hup.
  destruct (estimate_below_sentinel a item Hda Hbelow_a) as (Ea & Hin_a).
  destruct (estimate_below_sentinel b item ltac:(lia) Hbelow_b) as (Eb & Hin_b).
  rewrite <- Ea in Hin_a. rewrite <- Eb in Hin_b.
  apply elem_of_selected in Hin_a. destruct Hin_a as (ra & Hra & Eqa).
  apply elem_of_selected in Hin_b. destruct Hin_b as (rb & Hrb & Eqb).
  assert (ra = O) by lia. assert (rb = O) by lia. subst ra rb.
  rewrite Hw in Eqb. lia.
Qed.

(** C3.  When the widths or the depths differ, [Merge] throws
    [std::invalid_argument] and the receiver is exactly as before: the test
    comes before the first write.  ([other] is a [const] argument of the
    model as of the code: no outcome carries a new value for it.) *)
Theorem Merge_dimension_mismatch s other :
  width_ s <> width_ other \/ depth_ s <> depth_ other ->
  Merge other s = Throw (invalid_argument Merge_message) s.
Proof.
  intros Hdiff. unfold Merge. rewrite !bind_get.
  assert (Htest : negb (width_ s =? width_ other) || negb (depth_ s =? depth_ other) = true).
  { apply orb_true_iff. destruct Hdiff as [Hw|Hd]; [left | right];
      apply negb_true_iff, Z.eqb_neq; assumption. }
  rewrite Htest. reflexivity.
Qed.

(** C4.  After [Clear] on a reachable sketch, [Count] returns 0 for every key. *)
Theorem Clear_resets s :
  reachable s ->
  exists s', Clear s = Ok tt s' /\ forall item, Count item s' = Ok 0 s'.
Proof.
  intros Hreach. pose proof (reachable_wf s Hreach) as Hwf.
  destruct (Clear_wf s Hwf) as (s' & Hrun & Hwf' & _ & Hcell).
  exists s'. split; [exact Hrun|]. intros item.
  rewrite (Count_wf s' item Hwf'). f_equal.
  apply estimate_zero; [apply Hwf'|]. intros r _. apply Hcell.
Qed.

(** C8.  Move construction from a sketch with at least one row yields an
    object that holds the grid and the dimensions of the source and an empty
    [hash_functions_]; [Insert] and [Count] on it index that empty vector at 0. *)
Theorem move_construct_loses_hash_functions other item :
  0 < depth_ other ->
  counts_ (fst (move_construct other)) = counts_ other /\
  width_ (fst (move_construct other)) = width_ other /\
  depth_ (fst (move_construct other)) = depth_ other /\
  hash_functions_ (fst (move_construct other)) = [] /\
  Insert item (fst (move_construct other)) =
    Undefined (index_out_of_range vec_hash_functions 0) /\
  Count item (fst (move_construct other)) =
    Undefined (index_out_of_range vec_hash_functions 0).
Proof.
  intros Hd. repeat (split; [reflexivity|]).
  unfold Insert, Count. rewrite !bind_get. unfold for_loop. simpl.
  destruct (Z.to_nat (depth_ other)) as [|n] eqn:E; [lia|].
  split; reflexivity.
Qed.

Lemma hits_times w r c n item :
  0 <= n -> hits w r c (times n item) = if decide (column w r item = c) then n else 0.
Proof.
  intros Hn. unfold times. rewrite hits_replicate.
  destruct (decide _); [apply Z2Nat.id; exact Hn | reflexivity].
Qed.

Lemma occurrences_times `{EqDecision KeyType} n (item : KeyType) :
  0 <= n -> occurrences item (times n item) = n.
Proof. intros Hn. unfold times. rewrite occurrences_replicate. apply Z2Nat.id. exact Hn. Qed.

(** The state after [n] insertions of one key into a new sketch. *)
Lemma InsertAll_times w d n item :
  0 < w < 4294967296 -> 0 <= d < 4294967296 -> 0 <= n ->
  exists s', InsertAll (times n item) (new w d) = Ok tt s' /\ wf s' /\
    width_ s' = w /\ depth_ s' = d /\
    forall r, (r < Z.to_nat d)%nat -> cell s' r (column w r item) = wrap32 n.
Proof.
  intros Hw Hd Hn.
  destruct (InsertAll_wf (times n item) (new w d) (new_wf w d Hw Hd))
    as (s' & Hrun & Hwf' & (Hw' & Hd' & _) & Hcell).
  exists s'. split; [exact Hrun|]. split; [exact Hwf'|].
  split; [exact Hw'|]. split; [exact Hd'|].
  intros r Hr. change (depth_ (new w d)) with d in Hcell.
  change (width_ (new w d)) with w in Hcell.
  rewrite Hcell, new_cell, hits_times by assumption.
  destruct (decide _); [reflexivity | contradiction].
Qed.

(** A new sketch after [n] insertions of one key, and after one more: every
    counter selected for the key holds [n], then [n + 1], modulo [2^32]. *)
Lemma InsertAll_times_then_Insert w d n item :
  0 < w < 4294967296 -> 0 < d < 4294967296 -> 0 <= n ->
  exists s s1,
    InsertAll (times n item) (new w d) = Ok tt s /\ wf s /\
    (forall r, (r < Z.to_nat d)%nat -> cell s r (column w r item) = wrap32 n) /\
    (n < UINT32_MAX -> Count item s = Ok n s) /\
    Insert item s = Ok tt s1 /\ wf s1 /\ width_ s1 = w /\ depth_ s1 = d /\
    (forall r, (r < Z.to_nat d)%nat -> cell s1 r (column w r item) = wrap32 (n + 1)).
Proof.
  intros Hw Hd Hn.
  destruct (InsertAll_times w d n item Hw ltac:(lia) Hn)
    as (s & Hrun & Hwf & Hws & Hds & Hcell).
  destruct (Insert_wf s item Hwf) as (s1 & Hrun1 & Hwf1 & (Hw1 & Hd1 & _) & Hcell1).
  exists s, s1. split; [exact Hrun|]. split; [exact Hwf|]. split; [exact Hcell|].
  split; [|split; [exact Hrun1|]; split; [exact Hwf1|];
           split; [congruence|]; split; [congruence|]].
  - intros Hlt. rewrite (Count_wf s item Hwf). f_equal.
    assert (Hvalue : forall r, (r < Z.to_nat (depth_ s))%nat ->
              cell s r (column (width_ s) r item) = n).
    { rewrite Hds, Hws. intros r Hr. rewrite (Hcell r Hr).
      unfold UINT32_MAX in Hlt. apply wrap32_small. lia. }
    apply Z.le_antisymm.
    + assert (H0 : (0 < Z.to_nat (depth_ s))%nat) by lia.
      assert (Hbelow : forall r, (r < Z.to_nat (depth_ s))%nat ->
                cell s r (column (width_ s) r item) < UINT32_MAX)
        by (intros r Hr; rewrite (Hvalue r Hr); exact Hlt).
      pose proof (estimate_upper s item O ltac:(lia) Hbelow H0) as Hup.
      rewrite (Hvalue O H0) in Hup. exact Hup.
    + apply estimate_lower; [lia|]. intros r Hr. rewrite (Hvalue r Hr). lia.
  - intros r Hr. rewrite Hcell1, Hws, Hds.
    destruct (decide _) as [_|Hno]; [|exfalso; apply Hno; split; [exact Hr | reflexivity]].
    rewrite (Hcell r Hr). apply wrap32_add_l.
Qed.

(** C9.  Counters are [uint32_t] and every [Insert] increments them modulo
    [2^32].  On a new sketch, after [n] insertions of one key every counter
    selected for the key holds [n mod 2^32] and [Count] returns [n] as long
    as [n < 2^32 - 1]; one more [Insert] takes these counters to
    [(n + 1) mod 2^32].  So after [2^32 - 1] insertions the counters hold
    [2^32 - 1], the next [Insert] brings them back to 0, and after [2^32]
    insertions [Count] returns 0 for a key that was inserted [2^32] times. *)
Theorem counter_wraps_at_2_32 `{EqDecision KeyType} w d (item : KeyType) :
  0 < w < 4294967296 -> 0 < d < 4294967296 ->
  (forall n, 0 <= n ->
     exists s s1,
       InsertAll (times n item) (new w d) = Ok tt s /\
       occurrences item (times n item) = n /\
       (forall r, (r < Z.to_nat d)%nat -> cell s r (column w r item) = wrap32 n) /\
       (n < UINT32_MAX -> Count item s = Ok n s) /\
       Insert item s = Ok tt s1 /\
       (forall r, (r < Z.to_nat d)%nat ->
          cell s1 r (column w r item) = wrap32 (n + 1))) /\
  (exists s_max s_zero,
     InsertAll (times 4294967295 item) (new w d) = Ok tt s_max /\
     (forall r, (r < Z.to_nat d)%nat -> cell s_max r (column w r item) = 4294967295) /\
     Insert item s_max = Ok tt s_zero /\
     (forall r, (r < Z.to_nat d)%nat -> cell s_zero r (column w r item) = 0) /\
     Count item s_zero = Ok 0 s_zero) /\
  exists s', InsertAll (times 4294967296 item) (new w d) = Ok tt s' /\
    (forall r, (r < Z.to_nat d)%nat -> cell s' r (column w r item) = 0) /\
    Count item s' = Ok 0 s' /\
    occurrences item (times 4294967296 item) = 4294967296.
Proof.
  intros Hw Hd. split; [|split].
  - intros n Hn.
    destruct (InsertAll_times_then_Insert w d n item Hw Hd Hn)
      as (s & s1 & Hrun & _ & Hcell & Hcount & Hrun1 & _ & _ & _ & Hcell1).
    exists s, s1. split; [exact Hrun|]. split; [apply occurrences_times; exact Hn|].
    split; [exact Hcell|]. split; [exact Hcount|]. split; [exact Hrun1 | exact Hcell1].
  - destruct (InsertAll_times_then_Insert w d 4294967295 item Hw Hd ltac:(lia))
      as (s & s1 & Hrun & _ & Hcell & _ & Hrun1 & Hwf1 & Hw1 & Hd1 & Hcell1).
    exists s, s1. split; [exact Hrun|]. split; [exact Hcell|]. split; [exact Hrun1|].
    split; [exact Hcell1|].
    rewrite (Count_wf s1 item Hwf1). f_equal.
    apply estimate_zero; [lia|]. rewrite Hd1, Hw1. exact Hcell1.
  - destruct (InsertAll_times w d 4294967296 item Hw ltac:(lia) ltac:(lia))
      as (s' & Hrun & Hwf' & Hw' & Hd' & Hcell).
    exists s'. split; [exact Hrun|]. split; [exact Hcell|].
    split; [|apply occurrences_times; lia].
    rewrite (Count_wf s' item Hwf'). f_equal.
    apply estimate_zero; [lia|]. rewrite Hd', Hw'. exact Hcell.
Qed.



(** ** [TopK] *)

Lemma by_count_desc_swo : strict_weak_ordering by_count_desc.
Proof.
  unfold by_count_desc. constructor.
  - intros a. apply Z.ltb_irrefl.
  - intros a b c H1 H2. apply Z.ltb_lt in H1, H2. apply Z.ltb_lt. lia.
  - intros a b c H1 H2 H3 H4. apply Z.ltb_ge in H1, H2, H3, H4.
    split; apply Z.ltb_ge; lia.
Qed.

Lemma by_count_desc_false (p q : KeyType * Z) :
  by_count_desc q p = false -> snd q <= snd p.
Proof. unfold by_count_desc. intros H. apply Z.ltb_ge in H. exact H. Qed.

Lemma count_candidates_wf s candidates :
  wf s -> count_candidates candidates s = Ok (counted s candidates) s.
Proof.
  intros Hwf. induction candidates as [|item rest IH]; [reflexivity|].
  simpl. rewrite (bind_Ok _ _ _ _ _ (Count_wf s item Hwf)).
  rewrite (bind_Ok _ _ _ _ _ IH). reflexivity.
Qed.

Lemma elem_of_counted s candidates key c :
  wf s -> (key, c) ∈ counted s candidates -> Count key s = Ok c s.
Proof.
  intros Hwf Hin. apply list_elem_of_fmap in Hin. destruct Hin as (k & E & _).
  injection E as -> ->. apply Count_wf. exact Hwf.
Qed.

(** C5.  [TopK k candidates] returns [min (k, candidates.size())] pairs, in
    descending order of count; every returned count is what [Count] returns
    for its key; and the returned pairs together with some [rest] are the
    counted candidates, no pair of [rest] having a larger count than a
    returned one.  The statement holds for every implementation of
    [std::sort] and [std::nth_element] that meets the standard's
    postconditions, so for either order of equal counts. *)
Theorem TopK_correct `{StdAlgorithm} s k candidates :
  reachable s -> 0 <= k <= UINT16_MAX ->
  exists result, TopK k candidates s = Ok result s /\
    length result = Nat.min (Z.to_nat k) (length candidates) /\
    (forall (i j : nat) p q, (i < j)%nat ->
       result !! i = Some p -> result !! j = Some q -> snd q <= snd p) /\
    (forall key c, (key, c) ∈ result -> Count key s = Ok c s) /\
    exists rest, result ++ rest ≡ₚ counted s candidates /\
      forall p q, p ∈ result -> q ∈ rest -> snd q <= snd p.
Proof.
  intros Hreach Hk. pose proof (reachable_wf s Hreach) as Hwf.
  unfold TopK. rewrite (bind_Ok _ _ _ _ _ (count_candidates_wf s candidates Hwf)).
  assert (Hlen : length (counted s candidates) = length candidates)
    by (unfold counted; apply length_fmap).
  destruct (Z.leb_spec (Z.of_nat (length (counted s candidates))) k) as [Hall|Hsome].
  - eexists. split; [reflexivity|].
    pose proof (std_sort_permutation _ by_count_desc (counted s candidates)) as Hperm.
    split; [rewrite (Permutation_length Hperm); lia|].
    split; [|split].
    + intros i j p q Hij Hp Hq. apply by_count_desc_false.
      exact (std_sort_sorted _ _ _ i j p q by_count_desc_swo Hij Hp Hq).
    + intros key c Hin. rewrite Hperm in Hin.
      exact (elem_of_counted s candidates key c Hwf Hin).
    + exists []. split; [rewrite app_nil_r; exact Hperm|].
      intros p q _ Hq. inversion Hq.
  - set (all' := std_nth_element by_count_desc (Z.to_nat k) (counted s candidates)).
    pose proof (std_nth_element_permutation _ by_count_desc (Z.to_nat k)
                  (counted s candidates)) as Hperm'.
    fold all' in Hperm'.
    pose proof (std_sort_permutation _ by_count_desc (take (Z.to_nat k) all')) as Hperm.
    eexists. split; [reflexivity|].
    split; [|split; [|split]].
    + rewrite (Permutation_length Hperm), length_take, (Permutation_length Hperm'). lia.
    + intros i j p q Hij Hp Hq. apply by_count_desc_false.
      exact (std_sort_sorted _ _ _ i j p q by_count_desc_swo Hij Hp Hq).
    + intros key c Hin. rewrite Hperm in Hin.
      apply elem_of_take in Hin. destruct Hin as (i & Hi & _).
      apply list_elem_of_lookup_2 in Hi. rewrite Hperm' in Hi.
      exact (elem_of_counted s candidates key c Hwf Hi).
    + exists (drop (Z.to_nat k) all'). split.
      * rewrite Hperm, take_drop. exact Hperm'.
      * intros p q Hp Hq. rewrite Hperm in Hp.
        apply elem_of_take in Hp. destruct Hp as (i & Hi & Hik).
        apply list_elem_of_lookup in Hq. destruct Hq as (j & Hj).
        rewrite lookup_drop in Hj. apply by_count_desc_false.
        exact (std_nth_element_partition _ _ _ _ i (Z.to_nat k + j)%nat p q
                 by_count_desc_swo Hik ltac:(lia) Hi Hj).
Qed.

(** ** The structural invariant *)

(** C7 (as amended).  On a reachable sketch every operation returns and keeps
    the dimensions.  [Count] and [TopK] leave the object as it is.  [Insert]
    leaves a counter alone or adds 1 to it modulo [2^32], so a counter below
    [2^32 - 1] does not decrease.  [Clear] sets every counter to 0.  [Merge]
    of a reachable sketch of the same dimensions adds the other counter modulo
    [2^32], so a counter does not decrease when the sum is below [2^32]; with
    other dimensions it throws and changes nothing. *)
Theorem grid_invariant `{StdAlgorithm} s :
  reachable s ->
  (forall item, exists s', Insert item s = Ok tt s' /\
     dimensions s' = dimensions s /\
     forall r c,
       (cell s' r c = cell s r c \/ cell s' r c = wrap32 (cell s r c + 1)) /\
       (cell s r c < UINT32_MAX -> cell s r c <= cell s' r c)) /\
  (forall item, exists n, Count item s = Ok n s) /\
  (forall k candidates, exists result, TopK k candidates s = Ok result s) /\
  (exists s', Clear s = Ok tt s' /\ dimensions s' = dimensions s /\
     forall r c, cell s' r c = 0) /\
  (forall other, reachable other ->
     (width_ other = width_ s /\ depth_ other = depth_ s ->
      exists s', Merge other s = Ok tt s' /\ dimensions s' = dimensions s /\
        forall r c,
          cell s' r c = wrap32 (cell s r c + cell other r c) /\
          (cell s r c + cell other r c < 4294967296 -> cell s r c <= cell s' r c)) /\
     (~ (width_ other = width_ s /\ depth_ other = depth_ s) ->
      exists e, Merge other s = Throw e s)).
Proof.
  intros Hreach. pose proof (reachable_wf s Hreach) as Hwf.
  split; [|split; [|split; [|split]]].
  - intros item.
    destruct (Insert_wf s item Hwf) as (s' & Hrun & Hwf' & Hfr & Hcell).
    exists s'. split; [exact Hrun|]. split; [apply wf_dimensions; assumption|].
    intros r c. rewrite Hcell. pose proof (wf_cells _ Hwf r c) as Hrc.
    destruct (decide _); split; auto; intros Hlt; [|lia].
    unfold UINT32_MAX in Hlt. rewrite wrap32_small by lia. lia.
  - intros item. exists (estimate s item). apply Count_wf. exact Hwf.
  - intros k candidates. unfold TopK.
    rewrite (bind_Ok _ _ _ _ _ (count_candidates_wf s candidates Hwf)).
    destruct (_ <=? _); eexists; reflexivity.
  - destruct (Clear_wf s Hwf) as (s' & Hrun & Hwf' & Hfr & Hcell).
    exists s'. split; [exact Hrun|]. split; [apply wf_dimensions; assumption | exact Hcell].
  - intros other Hother. pose proof (reachable_wf other Hother) as Hwo. split.
    + intros [Hw Hd].
      destruct (Merge_wf s other Hwf Hwo Hw Hd) as (s' & Hrun & Hwf' & Hfr & Hcell).
      exists s'. split; [exact Hrun|]. split; [apply wf_dimensions; assumption|].
      intros r c. split; [apply Hcell|]. intros Hlt. rewrite Hcell.
      pose proof (wf_cells _ Hwf r c). pose proof (wf_cells _ Hwo r c).
      rewrite wrap32_small by lia. lia.
    + intros Hne. eexists. apply Merge_mismatch.
      destruct (Z.eq_dec (width_ s) (width_ other)) as [Hw|Hw]; [|left; exact Hw].
      right. intros Hd. apply Hne. split; congruence.
Qed.

(** ** Sketches of one counter *)

(** In a sketch of width 1 every key falls in column 0, whatever the hash. *)
Lemma column_width_1 r item : column 1 r item = O.
Proof. unfold column. rewrite Z.mod_1_r. reflexivity. Qed.

Lemma sketch_1x1 s :
  wf s -> width_ s = 1 -> depth_ s = 1 ->
  s = mkCountMinSketch 1 1 [[cell s 0 0]] 1 [0].
Proof.
  destruct s as [w d g l h]. intros Hwf Hw Hd. simpl in Hw, Hd. subst w d.
  destruct Hwf as [_ _ Hrows Hcols _ Hlocks Hhash]. simpl in *.
  destruct g as [|row [|]]; try discriminate.
  pose proof (Hcols O row eq_refl) as Hrow.
  destruct row as [|v [|]]; try discriminate.
  unfold cell. simpl. rewrite Hlocks, Hhash. reflexivity.
Qed.

(** [n] insertions of a key into a new sketch of one counter. *)
Lemma InsertAll_times_1x1 n item :
  0 <= n ->
  InsertAll (times n item) (new 1 1) =
  Ok tt (mkCountMinSketch 1 1 [[wrap32 n]] 1 [0]).
Proof.
  intros Hn.
  destruct (InsertAll_times 1 1 n item ltac:(lia) ltac:(lia) Hn)
    as (s' & Hrun & Hwf' & Hw' & Hd' & Hcell).
  rewrite Hrun. f_equal. rewrite (sketch_1x1 s' Hwf' Hw' Hd').
  specialize (Hcell O ltac:(lia)). rewrite column_width_1 in Hcell.
  rewrite Hcell. reflexivity.
Qed.

Lemma reachable_InsertAll items : forall s s',
  reachable s -> InsertAll items s = Ok tt s' -> reachable s'.
Proof.
  induction items as [|item items IH]; intros s s' Hreach Hrun.
  - injection Hrun as <-. exact Hreach.
  - simpl in Hrun.
    destruct (Insert_wf s item (reachable_wf s Hreach)) as (s1 & H1 & _).
    rewrite (bind_Ok _ _ _ _ _ H1) in Hrun.
    exact (IH s1 s' (reachable_Insert s item s1 Hreach H1) Hrun).
Qed.

(** ** Equality of sketches, and how the operations compose *)

Lemma wrap32_add_r a b : wrap32 (a + wrap32 b) = wrap32 (a + b).
Proof. unfold wrap32. apply Zplus_mod_idemp_r. Qed.

Lemma wrap32_le z : 0 <= z -> wrap32 z <= z.
Proof. intros Hz. unfold wrap32. apply Z.mod_le; lia. Qed.

(** Two well-formed sketches of the same dimensions that agree on every
    counter are the same object state. *)
Lemma sketch_ext s t :
  wf s -> wf t -> width_ t = width_ s -> depth_ t = depth_ s ->
  (forall r c, cell t r c = cell s r c) -> t = s.
Proof.
  intros Hs Ht Hw Hd Hcell.
  pose proof (wf_rows _ Hs) as Hrs. pose proof (wf_rows _ Ht) as Hrt.
  pose proof (wf_cols _ Hs) as Hcs. pose proof (wf_cols _ Ht) as Hct.
  pose proof (wf_locks _ Hs) as Hls. pose proof (wf_locks _ Ht) as Hlt.
  pose proof (wf_hash _ Hs) as Hhs. pose proof (wf_hash _ Ht) as Hht.
  unfold cell in Hcell.
  destruct s as [w d g l h], t as [w' d' g' l' h']. simpl in *. subst.
  f_equal. apply list_eq. intros i.
  destruct (g' !! i) as [row'|] eqn:E'; destruct (g !! i) as [row|] eqn:E.
  - f_equal. apply list_eq. intros j.
    specialize (Hcell i j). rewrite E, E' in Hcell.
    pose proof (Hcs i row E) as Hlen. pose proof (Hct i row' E') as Hlen'.
    destruct (row' !! j) as [v'|] eqn:F'; destruct (row !! j) as [v|] eqn:F.
    + congruence.
    + apply lookup_lt_Some in F'. apply lookup_ge_None in F. lia.
    + apply lookup_ge_None in F'. apply lookup_lt_Some in F. lia.
    + reflexivity.
  - apply lookup_lt_Some in E'. apply lookup_ge_None in E. lia.
  - apply lookup_ge_None in E'. apply lookup_lt_Some in E. lia.
  - reflexivity.
Qed.

Lemma hits_Permutation w r c items items' :
  items ≡ₚ items' -> hits w r c items = hits w r c items'.
Proof. intros Hperm. unfold hits. rewrite Hperm. reflexivity. Qed.

Lemma hits_app w r c items items' :
  hits w r c (items ++ items') = hits w r c items + hits w r c items'.
Proof. unfold hits. rewrite filter_app, length_app. lia. Qed.

(** Without a colliding key in row [r], the counter of [item] has been hit
    exactly as often as [item] occurs. *)
Lemma hits_without_collision `{EqDecision KeyType} w r (item : KeyType) items :
  (forall k, k ∈ items -> column w r k = column w r item -> k = item) ->
  hits w r (column w r item) items = occurrences item items.
Proof.
  intros Hfree. unfold hits, occurrences. f_equal. f_equal.
  induction items as [|k items IH]; [reflexivity|].
  rewrite !filter_cons.
  assert (IH' : filter (fun k0 => column w r k0 = column w r item) items =
                filter (fun k0 => k0 = item) items).
  { apply IH. intros k0 Hk0. apply Hfree. apply elem_of_cons. right. exact Hk0. }
  destruct (decide (column w r k = column w r item)) as [Hc|Hc];
    destruct (decide (k = item)) as [Hk|Hk].
  - rewrite IH'. reflexivity.
  - exfalso. apply Hk. apply Hfree; [apply elem_of_cons; left; reflexivity | exact Hc].
  - exfalso. apply Hc. rewrite Hk. reflexivity.
  - exact IH'.
Qed.

Lemma estimate_range s item : wf s -> 0 <= estimate s item < UINT32_MAX.
Proof.
  intros Hwf. unfold estimate, running_min.
  pose proof (fold_min_le_init (selected s item) UINT32_MAX) as Hle.
  destruct (Z.eqb_spec (fold_left Z.min (selected s item) UINT32_MAX) UINT32_MAX) as [E|E].
  - unfold UINT32_MAX. lia.
  - split; [|lia].
    destruct (fold_min_attained (selected s item) UINT32_MAX) as [Hm|Hm]; [contradiction|].
    apply elem_of_selected in Hm. destruct Hm as (r & _ & ->). apply Hwf.
Qed.

(** [Count] is at most any of the counters it reads. *)
Lemma estimate_le_cell s item r :
  wf s -> (r < Z.to_nat (depth_ s))%nat ->
  estimate s item <= cell s r (column (width_ s) r item).
Proof.
  intros Hwf Hr. unfold estimate, running_min.
  pose proof (fold_min_le_elem (selected s item) UINT32_MAX _
    (proj2 (elem_of_selected s item _) (ex_intro _ r (conj Hr eq_refl)))) as Hle.
  pose proof (wf_cells _ Hwf r (column (width_ s) r item)).
  destruct (Z.eqb_spec (fold_left Z.min (selected s item) UINT32_MAX) UINT32_MAX); lia.
Qed.

(** ** Further properties of the constructor, [Insert], [Count], [Clear] and [Merge] *)

(** X1.  A sketch built by the constructor with a positive width counts 0
    for every key. *)
Theorem new_counts_zero w d item :
  0 < w < 4294967296 -> 0 <= d < 4294967296 ->
  Count item (new w d) = Ok 0 (new w d).
Proof.
  intros Hw Hd. rewrite (Count_wf _ item (new_wf w d Hw Hd)). f_equal.
  apply estimate_zero; [exact (proj1 Hd)|]. intros r _. apply new_cell.
Qed.

(** X2.  The constructor does not validate its arguments: on a sketch built
    with width 0 and at least one row the first call of a hash function in
    [Insert] or [Count] takes a remainder by zero. *)
Theorem zero_width_divides_by_zero d item :
  0 < d ->
  Insert item (new 0 d) = Undefined remainder_by_zero /\
  Count item (new 0 d) = Undefined remainder_by_zero.
Proof.
  intros Hd. unfold Insert, Count, new. rewrite !bind_get. simpl.
  destruct (Z.to_nat d) as [|n] eqn:E; [lia|]. split; reflexivity.
Qed.

(** X3.  [Insert item] adds 1, modulo [2^32], to the counter that the hash
    function of each row selects for [item] and changes no other counter. *)
Theorem Insert_increments_selected s item :
  reachable s ->
  exists s', Insert item s = Ok tt s' /\
    forall r c, cell s' r c =
      if decide ((r < Z.to_nat (depth_ s))%nat /\ c = column (width_ s) r item)
      then wrap32 (cell s r c + 1) else cell s r c.
Proof.
  intros Hreach.
  destruct (Insert_wf s item (reachable_wf s Hreach)) as (s' & Hrun & _ & _ & Hcell).
  exists s'. split; [exact Hrun | exact Hcell].
Qed.

(** X4.  The state after a run of insertions does not depend on their order. *)
Theorem InsertAll_order_irrelevant s items items' :
  reachable s -> items ≡ₚ items' ->
  exists s', InsertAll items s = Ok tt s' /\ InsertAll items' s = Ok tt s'.
Proof.
  intros Hreach Hperm. pose proof (reachable_wf s Hreach) as Hwf.
  destruct (InsertAll_wf items s Hwf) as (s1 & H1 & Hwf1 & (Hw1 & Hd1 & _) & Hcell1).
  destruct (InsertAll_wf items' s Hwf) as (s2 & H2 & Hwf2 & (Hw2 & Hd2 & _) & Hcell2).
  exists s1. split; [exact H1|]. rewrite H2. f_equal.
  apply sketch_ext; try assumption; try congruence.
  intros r c. destruct (decide (r < Z.to_nat (depth_ s))%nat) as [Hr|Hr].
  - rewrite Hcell1, Hcell2 by exact Hr. f_equal. f_equal.
    symmetry. apply hits_Permutation. exact Hperm.
  - rewrite (cell_outside s1 r c Hwf1), (cell_outside s2 r c Hwf2);
      [reflexivity | rewrite Hd2; tauto | rewrite Hd1; tauto].
Qed.

(** X5.  [Count] never returns [2^32 - 1]: its value lies in [0, 2^32 - 2]. *)
Theorem Count_range s item :
  reachable s ->
  exists v, Count item s = Ok v s /\ 0 <= v < UINT32_MAX.
Proof.
  intros Hreach. pose proof (reachable_wf s Hreach) as Hwf.
  exists (estimate s item). split; [apply Count_wf; exact Hwf | apply estimate_range; exact Hwf].
Qed.

(** X6.  After any run of insertions into a sketch whose counters are all
    zero, [Count] returns at most the number of insertions, whatever the key
    and however long the run. *)
Theorem Count_at_most_insertions s (items : list KeyType) item :
  reachable s -> (forall r c, cell s r c = 0) ->
  exists s' n, InsertAll items s = Ok tt s' /\ Count item s' = Ok n s' /\
    n <= Z.of_nat (length items).
Proof.
  intros Hreach Hzero. pose proof (reachable_wf s Hreach) as Hwf.
  destruct (InsertAll_wf items s Hwf) as (s' & Hrun & Hwf' & (Hw & Hd & _) & Hcell).
  exists s', (estimate s' item). split; [exact Hrun|]. split; [apply Count_wf; exact Hwf'|].
  destruct (Z.eq_dec (depth_ s) 0) as [E|E].
  - rewrite estimate_no_rows by lia. lia.
  - pose proof (wf_depth _ Hwf) as Hrange.
    assert (H0 : (0 < Z.to_nat (depth_ s))%nat) by lia.
    pose proof (estimate_le_cell s' item O Hwf' ltac:(rewrite Hd; exact H0)) as Hle.
    rewrite Hw, Hcell, Hzero, Z.add_0_l in Hle by exact H0.
    pose proof (hits_nonneg (width_ s) O (column (width_ s) O item) items).
    pose proof (hits_le_length (width_ s) O (column (width_ s) O item) items).
    pose proof (wrap32_le (hits (width_ s) O (column (width_ s) O item) items)). lia.
Qed.

(** X7.  The count is exact when some row is free of collisions: after a run
    of insertions into a sketch whose counters are all zero, if no counter
    selected for [item] has reached [2^32 - 1] and in some row every inserted
    key that falls in the column of [item] is [item] itself, [Count item]
    returns the number of times [item] was inserted (0 for a key that was
    not). *)
Theorem Count_exact_without_collision `{EqDecision KeyType}
    s (items : list KeyType) item (r0 : nat) :
  reachable s -> (forall r c, cell s r c = 0) ->
  (forall r, (r < Z.to_nat (depth_ s))%nat ->
     hits (width_ s) r (column (width_ s) r item) items < UINT32_MAX) ->
  (r0 < Z.to_nat (depth_ s))%nat ->
  (forall k, k ∈ items ->
     column (width_ s) r0 k = column (width_ s) r0 item -> k = item) ->
  exists s', InsertAll items s = Ok tt s' /\
    Count item s' = Ok (occurrences item items) s'.
Proof.
  intros Hreach Hzero Hroom Hr0 Hfree. pose proof (reachable_wf s Hreach) as Hwf.
  destruct (InsertAll_wf items s Hwf) as (s' & Hrun & Hwf' & (Hw & Hd & _) & Hcell).
  exists s'. split; [exact Hrun|]. rewrite (Count_wf s' item Hwf'). f_equal.
  assert (Hvalue : forall r, (r < Z.to_nat (depth_ s))%nat ->
            cell s' r (column (width_ s') r item) =
            hits (width_ s) r (column (width_ s) r item) items).
  { intros r Hr. rewrite Hw, Hcell, Hzero, Z.add_0_l by exact Hr.
    specialize (Hroom r Hr).
    pose proof (hits_nonneg (width_ s) r (column (width_ s) r item) items).
    unfold UINT32_MAX in Hroom. apply wrap32_small. lia. }
  apply Z.le_antisymm.
  - rewrite <- (hits_without_collision (width_ s) r0 item items Hfree).
    rewrite <- (Hvalue r0 Hr0). apply estimate_le_cell; [exact Hwf' | rewrite Hd; exact Hr0].
  - apply estimate_lower; [lia|]. rewrite Hd. intros r Hr. rewrite (Hvalue r Hr).
    pose proof (occurrences_le_hits (width_ s) r item items).
    specialize (Hroom r Hr). lia.
Qed.

(** X8.  [Clear] brings a sketch back to the state the constructor gives for
    its dimensions. *)
Theorem Clear_is_new s :
  reachable s -> Clear s = Ok tt (new (width_ s) (depth_ s)).
Proof.
  intros Hreach. pose proof (reachable_wf s Hreach) as Hwf.
  destruct (Clear_wf s Hwf) as (s' & Hrun & Hwf' & (Hw & Hd & _) & Hcell).
  rewrite Hrun. f_equal. symmetry.
  apply sketch_ext; [exact Hwf' | apply new_wf; apply Hwf | exact (eq_sym Hw)
                    | exact (eq_sym Hd) |].
  intros r c. rewrite new_cell, Hcell. reflexivity.
Qed.

(** X9.  Merging a sketch that was built from a list of keys is the same as
    inserting those keys: if [other] is the new sketch of the receiver's
    dimensions after the insertion of [items], [Merge other] and the
    insertion of [items] leave the receiver in the same state. *)
Theorem Merge_is_InsertAll s other items :
  reachable s ->
  InsertAll items (new (width_ s) (depth_ s)) = Ok tt other ->
  exists s', Merge other s = Ok tt s' /\ InsertAll items s = Ok tt s'.
Proof.
  intros Hreach Hother. pose proof (reachable_wf s Hreach) as Hwf.
  destruct (InsertAll_wf items _ (new_wf _ _ (wf_width _ Hwf) (wf_depth _ Hwf)))
    as (o & Ho & Hwo & (Hwo1 & Hdo1 & _) & Hcello).
  rewrite Ho in Hother. injection Hother as <-.
  change (width_ (new (width_ s) (depth_ s))) with (width_ s) in *.
  change (depth_ (new (width_ s) (depth_ s))) with (depth_ s) in *.
  destruct (Merge_wf s o Hwf Hwo Hwo1 Hdo1) as (s1 & H1 & Hwf1 & (Hw1 & Hd1 & _) & Hcell1).
  destruct (InsertAll_wf items s Hwf) as (s2 & H2 & Hwf2 & (Hw2 & Hd2 & _) & Hcell2).
  exists s1. split; [exact H1|]. rewrite H2. f_equal.
  apply sketch_ext; try assumption; try congruence.
  intros r c. destruct (decide (r < Z.to_nat (depth_ s))%nat) as [Hr|Hr].
  - rewrite Hcell1, Hcell2, Hcello, new_cell by exact Hr.
    rewrite Z.add_0_l, wrap32_add_r. reflexivity.
  - rewrite (cell_outside s1 r c Hwf1), (cell_outside s2 r c Hwf2);
      [reflexivity | rewrite Hd2; tauto | rewrite Hd1; tauto].
Qed.

(** X10.  [Merge] is commutative: for two sketches of the same dimensions,
    [a.Merge(b)] leaves [a] in the state in which [b.Merge(a)] leaves [b]. *)
Theorem Merge_commutative a b :
  reachable a -> reachable b -> width_ b = width_ a -> depth_ b = depth_ a ->
  exists c, Merge b a = Ok tt c /\ Merge a b = Ok tt c.
Proof.
  intros Ha Hb Hw Hd.
  pose proof (reachable_wf a Ha) as Hwa. pose proof (reachable_wf b Hb) as Hwb.
  destruct (Merge_wf a b Hwa Hwb Hw Hd) as (c1 & H1 & Hwf1 & (Hw1 & Hd1 & _) & Hcell1).
  destruct (Merge_wf b a Hwb Hwa (eq_sym Hw) (eq_sym Hd))
    as (c2 & H2 & Hwf2 & (Hw2 & Hd2 & _) & Hcell2).
  exists c1. split; [exact H1|]. rewrite H2. f_equal.
  apply sketch_ext; try assumption; try congruence.
  intros r c. rewrite Hcell1, Hcell2. f_equal. lia.
Qed.

(** X11.  [Merge] is associative: merging [b] and then [c] into [a] gives
    the state that merging into [a] the result of [b.Merge(c)] gives. *)
Theorem Merge_associative a b c :
  reachable a -> reachable b -> reachable c ->
  width_ b = width_ a -> depth_ b = depth_ a ->
  width_ c = width_ a -> depth_ c = depth_ a ->
  exists ab bc abc,
    Merge b a = Ok tt ab /\ Merge c ab = Ok tt abc /\
    Merge c b = Ok tt bc /\ Merge bc a = Ok tt abc.
Proof.
  intros Ha Hb Hc Hwb Hdb Hwc Hdc.
  pose proof (reachable_wf a Ha) as Hwfa. pose proof (reachable_wf b Hb) as Hwfb.
  pose proof (reachable_wf c Hc) as Hwfc.
  destruct (Merge_wf a b Hwfa Hwfb Hwb Hdb) as (ab & Hab & Hwab & (Hw1 & Hd1 & _) & Cab).
  destruct (Merge_wf ab c Hwab Hwfc ltac:(congruence) ltac:(congruence))
    as (abc & Habc & Hwabc & (Hw2 & Hd2 & _) & Cabc).
  destruct (Merge_wf b c Hwfb Hwfc ltac:(congruence) ltac:(congruence))
    as (bc & Hbc & Hwbc & (Hw3 & Hd3 & _) & Cbc).
  destruct (Merge_wf a bc Hwfa Hwbc ltac:(congruence) ltac:(congruence))
    as (abc' & Habc' & Hwabc' & (Hw4 & Hd4 & _) & Cabc').
  exists ab, bc, abc. split; [exact Hab|]. split; [exact Habc|]. split; [exact Hbc|].
  rewrite Habc'. f_equal.
  apply sketch_ext; try assumption; try congruence.
  intros r k. rewrite Cabc, Cabc', Cab, Cbc, wrap32_add_l, wrap32_add_r.
  f_equal. lia.
Qed.

(** ** Further properties of [TopK] *)

Lemma std_sort_nil `{StdAlgorithm} {A} (comp : A -> A -> bool) : std_sort comp [] = [].
Proof. apply Permutation_nil_r. apply std_sort_permutation. Qed.

(** What [TopK] selects: the returned pairs, and the pairs it leaves out. *)
Lemma TopK_selects `{StdAlgorithm} s k candidates :
  wf s ->
  exists result rest, TopK k candidates s = Ok result s /\
    length result = Nat.min (Z.to_nat k) (length candidates) /\
    (forall (i j : nat) p q, (i < j)%nat ->
       result !! i = Some p -> result !! j = Some q -> snd q <= snd p) /\
    result ++ rest ≡ₚ counted s candidates /\
    (forall p q, p ∈ result -> q ∈ rest -> snd q <= snd p).
Proof.
  intros Hwf. unfold TopK.
  rewrite (bind_Ok _ _ _ _ _ (count_candidates_wf s candidates Hwf)).
  assert (Hlen : length (counted s candidates) = length candidates)
    by (unfold counted; apply length_fmap).
  destruct (Z.leb_spec (Z.of_nat (length (counted s candidates))) k) as [Hall|Hsome].
  - pose proof (std_sort_permutation _ by_count_desc (counted s candidates)) as Hperm.
    eexists _, []. split; [reflexivity|].
    split; [rewrite (Permutation_length Hperm); lia|].
    split; [|split].
    + intros i j p q Hij Hp Hq. apply by_count_desc_false.
      exact (std_sort_sorted _ _ _ i j p q by_count_desc_swo Hij Hp Hq).
    + rewrite app_nil_r. exact Hperm.
    + intros p q _ Hq. inversion Hq.
  - set (all' := std_nth_element by_count_desc (Z.to_nat k) (counted s candidates)).
    pose proof (std_nth_element_permutation _ by_count_desc (Z.to_nat k)
                  (counted s candidates)) as Hperm'.
    fold all' in Hperm'.
    pose proof (std_sort_permutation _ by_count_desc (take (Z.to_nat k) all')) as Hperm.
    eexists _, (drop (Z.to_nat k) all'). split; [reflexivity|].
    split; [|split; [|split]].
    + rewrite (Permutation_length Hperm), length_take, (Permutation_length Hperm'). lia.
    + intros i j p q Hij Hp Hq. apply by_count_desc_false.
      exact (std_sort_sorted _ _ _ i j p q by_count_desc_swo Hij Hp Hq).
    + rewrite Hperm, take_drop. exact Hperm'.
    + intros p q Hp Hq. rewrite Hperm in Hp.
      apply elem_of_take in Hp. destruct Hp as (i & Hi & Hik).
      apply list_elem_of_lookup in Hq. destruct Hq as (j & Hj).
      rewrite lookup_drop in Hj. apply by_count_desc_false.
      exact (std_nth_element_partition _ _ _ _ i (Z.to_nat k + j)%nat p q
               by_count_desc_swo Hik ltac:(lia) Hi Hj).
Qed.

Lemma StronglySorted_of_lookup {A} (R : relation A) (l : list A) :
  (forall (i j : nat) x y, (i < j)%nat -> l !! i = Some x -> l !! j = Some y -> R x y) ->
  StronglySorted R l.
Proof.
  induction l as [|a l IH]; intros Hpair; constructor.
  - apply IH. intros i j x y Hij Hi Hj. exact (Hpair (S i) (S j) x y ltac:(lia) Hi Hj).
  - apply Forall_lookup_2. intros j y Hj. exact (Hpair O (S j) a y ltac:(lia) eq_refl Hj).
Qed.

(** X12.  [TopK] returns an empty list when [k] is 0 and when there is no
    candidate, whatever the sketch holds. *)
Theorem TopK_empty `{StdAlgorithm} s k candidates :
  reachable s ->
  TopK 0 candidates s = Ok [] s /\ TopK k [] s = Ok [] s.
Proof.
  intros Hreach. pose proof (reachable_wf s Hreach) as Hwf. unfold TopK. split.
  - rewrite (bind_Ok _ _ _ _ _ (count_candidates_wf s candidates Hwf)).
    destruct (Z.leb_spec (Z.of_nat (length (counted s candidates))) 0) as [Hle|_].
    + assert (E : counted s candidates = []) by (apply length_zero_iff_nil; lia).
      rewrite E, std_sort_nil. reflexivity.
    + change (Z.to_nat 0) with O. rewrite take_0, std_sort_nil. reflexivity.
  - assert (Hnone : forall n, take n (std_nth_element by_count_desc n []) = []).
    { intros n.
      rewrite (proj1 (Permutation_nil_r _) (std_nth_element_permutation _ by_count_desc n [])).
      apply take_nil. }
    simpl count_candidates. unfold bind at 1, ret at 1.
    destruct (_ <=? _); [|rewrite Hnone]; rewrite std_sort_nil; reflexivity.
Qed.

(** X13.  The counts that [TopK] returns do not depend on how the library
    algorithms order equal elements: they are the first [k] of the candidates'
    counts in descending order. *)
Theorem TopK_counts_canonical `{StdAlgorithm} s k candidates :
  reachable s -> 0 <= k <= UINT16_MAX ->
  exists result, TopK k candidates s = Ok result s /\
    snd <$> result =
    take (Z.to_nat k) (descending ((fun key => estimate s key) <$> candidates)).
Proof.
  intros Hreach Hk. pose proof (reachable_wf s Hreach) as Hwf.
  destruct (TopK_selects s k candidates Hwf)
    as (result & rest & Hrun & Hlen & Hsorted & Hperm & Hdom).
  exists result. split; [exact Hrun|].
  set (R := flip Z.le).
  assert (Htrans : Transitive R) by (intros a b c; unfold R, flip; lia).
  assert (Htotal : Total R) by (intros a b; unfold R, flip; lia).
  assert (Hanti : AntiSymm (=) R) by (intros a b; unfold R, flip; lia).
  assert (Hcounts : snd <$> counted s candidates = (fun key => estimate s key) <$> candidates).
  { unfold counted. rewrite <- list_fmap_compose. reflexivity. }
  assert (Hwhole : (snd <$> result) ++ descending (snd <$> rest) =
                   descending ((fun key => estimate s key) <$> candidates)).
  { apply (StronglySorted_unique R).
    - apply StronglySorted_app_2.
      + intros x y Hx Hy. unfold descending in Hy. rewrite merge_sort_Permutation in Hy.
        apply list_elem_of_fmap in Hx, Hy.
        destruct Hx as (p & -> & Hp). destruct Hy as (q & -> & Hq).
        exact (Hdom p q Hp Hq).
      + apply StronglySorted_of_lookup. intros i j x y Hij Hi Hj.
        rewrite list_lookup_fmap in Hi, Hj.
        destruct (result !! i) as [p|] eqn:Ep; [|discriminate].
        destruct (result !! j) as [q|] eqn:Eq; [|discriminate].
        injection Hi as <-. injection Hj as <-.
        exact (Hsorted i j p q Hij Ep Eq).
      + apply (StronglySorted_merge_sort R).
    - apply (StronglySorted_merge_sort R).
    - unfold descending. rewrite !merge_sort_Permutation.
      rewrite <- fmap_app, Hperm, Hcounts. reflexivity. }
  rewrite <- Hwhole.
  pose proof (Permutation_length Hperm) as Hlens.
  rewrite length_app in Hlens. unfold counted in Hlens. rewrite length_fmap in Hlens.
  destruct (decide (Z.to_nat k <= length candidates)%nat) as [Hle|Hgt].
  - rewrite take_app_length'; [reflexivity|]. rewrite length_fmap. lia.
  - assert (Hrest : rest = []) by (apply length_zero_iff_nil; lia).
    assert (Hnil : descending (snd <$> rest) = []).
    { rewrite Hrest. apply Permutation_nil_r. unfold descending.
      apply merge_sort_Permutation. }
    rewrite Hnil, app_nil_r. rewrite take_ge; [reflexivity|]. rewrite length_fmap. lia.
Qed.

(** ** Objects that were moved

    The operations that do not call a hash function run on an object with
    another [hash_functions_] exactly as on the object itself; those that do
    need the two vectors to agree on the rows of the grid. *)

Lemma Insert_rows s item :
  Insert item s = for_loop (Z.to_nat (depth_ s)) (Insert_row item) tt s.
Proof. reflexivity. Qed.

Lemma Count_rows s item :
  Count item s =
  bind (for_loop (Z.to_nat (depth_ s)) (Count_row item) UINT32_MAX)
       (fun min_count => ret (if min_count =? UINT32_MAX then 0 else min_count)) s.
Proof. reflexivity. Qed.

Lemma bind_commutes {A B} f (m : M A) (k : A -> M B) s :
  m (f s) = lift f (m s) ->
  (forall a t, k a (f t) = lift f (k a t)) ->
  bind m k (f s) = lift f (bind m k s).
Proof.
  intros Hm Hk. unfold bind. rewrite Hm.
  destruct (m s) as [a t|e t|u]; simpl; [apply Hk | reflexivity | reflexivity].
Qed.

Lemma for_from_commutes {A} f (Inv : CountMinSketch -> Prop) (body : nat -> A -> M A) n :
  forall i acc s,
    Inv s ->
    (forall j a t, (i <= j < i + n)%nat -> Inv t -> body j a (f t) = lift f (body j a t)) ->
    (forall j a t a' t', (i <= j < i + n)%nat -> Inv t -> body j a t = Ok a' t' -> Inv t') ->
    for_from i n body acc (f s) = lift f (for_from i n body acc s).
Proof.
  induction n as [|n IH]; intros i acc s Hinv Hbody Hkeep; [reflexivity|].
  simpl. unfold bind. rewrite (Hbody i acc s ltac:(lia) Hinv).
  destruct (body i acc s) as [a t|e t|u] eqn:E; simpl; try reflexivity.
  apply IH.
  - exact (Hkeep i acc s a t ltac:(lia) Hinv E).
  - intros j a' t' Hj. apply Hbody. lia.
  - intros j a1 t1 a2 t2 Hj. apply Hkeep. lia.
Qed.

Lemma for_loop_commutes {A} f (body : nat -> A -> M A) n acc s :
  (forall j a t, body j a (f t) = lift f (body j a t)) ->
  for_loop n body acc (f s) = lift f (for_loop n body acc s).
Proof.
  intros Hbody. unfold for_loop.
  apply (for_from_commutes f (fun _ => True)); [exact I | intros; apply Hbody | trivial].
Qed.

(** A loop whose body runs into undefined behaviour at iteration [m], after
    iterations that return, has that undefined behaviour. *)
Lemma for_from_fails {A} (P : nat -> A -> CountMinSketch -> Prop)
    (body : nat -> A -> M A) u (m n : nat) :
  forall i acc s,
    (i <= m < i + n)%nat -> P i acc s ->
    (forall j a t, (i <= j < m)%nat -> P j a t ->
       exists a' t', body j a t = Ok a' t' /\ P (S j) a' t') ->
    (forall a t, P m a t -> body m a t = Undefined u) ->
    for_from i n body acc s = Undefined u.
Proof.
  induction n as [|n IH]; intros i acc s Hm HP Hstep Hfail; [lia|].
  simpl. unfold bind. destruct (decide (i = m)) as [->|Hne].
  - rewrite (Hfail acc s HP). reflexivity.
  - destruct (Hstep i acc s ltac:(lia) HP) as (a' & t' & -> & HP').
    apply IH; [lia | exact HP' | intros j a t Hj; apply Hstep; lia | exact Hfail].
Qed.

Lemma lock_guard_set_hash h r s :
  lock_guard r (set_hash_functions h s) = lift (set_hash_functions h) (lock_guard r s).
Proof. unfold lock_guard. simpl. destruct (_ <? _)%nat; reflexivity. Qed.

Lemma read_count_set_hash h r c s :
  read_count r c (set_hash_functions h s) = lift (set_hash_functions h) (read_count r c s).
Proof.
  unfold read_count. simpl. destruct (counts_ s !! r) as [row|]; [|reflexivity].
  destruct (row !! c); reflexivity.
Qed.

Lemma write_count_set_hash h r c v s :
  write_count r c v (set_hash_functions h s) =
  lift (set_hash_functions h) (write_count r c v s).
Proof.
  unfold write_count. simpl. destruct (counts_ s !! r) as [row|]; [|reflexivity].
  destruct (_ <? _)%nat; reflexivity.
Qed.

Lemma read_other_set_hash other h r c s :
  read_other other r c (set_hash_functions h s) =
  lift (set_hash_functions h) (read_other other r c s).
Proof.
  unfold read_other. destruct (counts_ other !! r) as [row|]; [|reflexivity].
  destruct (row !! c); reflexivity.
Qed.

Lemma call_hash_function_set_hash h r item s :
  h !! r = hash_functions_ s !! r ->
  call_hash_function r item (set_hash_functions h s) =
  lift (set_hash_functions h) (call_hash_function r item s).
Proof.
  intros E. unfold call_hash_function, bind, get. simpl. rewrite E.
  destruct (hash_functions_ s !! r); [|reflexivity].
  unfold HashFunction, bind, get. simpl. destruct (width_ s =? 0); reflexivity.
Qed.

Lemma Insert_row_set_hash h item r u s :
  h !! r = hash_functions_ s !! r ->
  Insert_row item r u (set_hash_functions h s) =
  lift (set_hash_functions h) (Insert_row item r u s).
Proof.
  intros E. unfold Insert_row.
  apply bind_commutes; [apply call_hash_function_set_hash; exact E|]. intros col t.
  apply bind_commutes; [apply lock_guard_set_hash|]. intros _ t'.
  apply bind_commutes; [apply read_count_set_hash|]. intros v t''.
  apply write_count_set_hash.
Qed.

Lemma Count_row_set_hash h item r m s :
  h !! r = hash_functions_ s !! r ->
  Count_row item r m (set_hash_functions h s) =
  lift (set_hash_functions h) (Count_row item r m s).
Proof.
  intros E. unfold Count_row.
  apply bind_commutes; [apply call_hash_function_set_hash; exact E|]. intros col t.
  apply bind_commutes; [apply lock_guard_set_hash|]. intros _ t'.
  apply bind_commutes; [apply read_count_set_hash|]. intros v t''. reflexivity.
Qed.

Lemma Insert_row_wf s item r :
  wf s -> (r < Z.to_nat (depth_ s))%nat ->
  exists s', Insert_row item r tt s = Ok tt s' /\ wf s' /\ same_frame s s'.
Proof.
  intros Hwf Hr. unfold Insert_row.
  destruct (call_hash_function_wf s r item Hwf Hr) as (col & Hcall & Hcol).
  assert (Hlt : (Z.to_nat col < Z.to_nat (width_ s))%nat).
  { rewrite Hcol. apply column_lt. apply Hwf. }
  rewrite (bind_Ok _ _ _ _ _ Hcall).
  rewrite (bind_Ok _ _ _ _ _ (lock_guard_wf s r Hwf Hr)).
  rewrite (bind_Ok _ _ _ _ _ (read_count_wf s r _ Hwf Hr Hlt)).
  destruct (write_count_wf s r (Z.to_nat col) (wrap32 (cell s r (Z.to_nat col) + 1))
              Hwf Hr Hlt (wrap32_range _)) as (s' & Hwr & Hwf' & Hfr & _).
  exists s'. split; [exact Hwr|]. split; assumption.
Qed.

Lemma Count_row_wf s item r m :
  wf s -> (r < Z.to_nat (depth_ s))%nat ->
  Count_row item r m s = Ok (Z.min m (cell s r (column (width_ s) r item))) s.
Proof.
  intros Hwf Hr. unfold Count_row.
  destruct (call_hash_function_wf s r item Hwf Hr) as (col & Hcall & Hcol).
  assert (Hlt : (Z.to_nat col < Z.to_nat (width_ s))%nat).
  { rewrite Hcol. apply column_lt. apply Hwf. }
  rewrite (bind_Ok _ _ _ _ _ Hcall).
  rewrite (bind_Ok _ _ _ _ _ (lock_guard_wf s r Hwf Hr)).
  rewrite (bind_Ok _ _ _ _ _ (read_count_wf s r _ Hwf Hr Hlt)).
  rewrite Hcol. reflexivity.
Qed.

Lemma wf_hash_lookup s (j : nat) :
  wf s -> (j < Z.to_nat (depth_ s))%nat -> hash_functions_ s !! j = Some (Z.of_nat j).
Proof.
  intros Hwf Hj. rewrite (wf_hash _ Hwf), list_lookup_fmap, lookup_seq_lt by exact Hj.
  reflexivity.
Qed.

Lemma wf_hash_length s : wf s -> length (hash_functions_ s) = Z.to_nat (depth_ s).
Proof. intros Hwf. rewrite (wf_hash _ Hwf), length_fmap, length_seq. reflexivity. Qed.

(** [Insert] and [Count] with a vector of hash functions that has the
    closures of the constructor on the rows of the grid. *)
Lemma Insert_set_hash s h item :
  wf s ->
  (forall j : nat, (j < Z.to_nat (depth_ s))%nat -> h !! j = Some (Z.of_nat j)) ->
  Insert item (set_hash_functions h s) = lift (set_hash_functions h) (Insert item s).
Proof.
  intros Hwf Hh. rewrite !Insert_rows. unfold for_loop.
  change (depth_ (set_hash_functions h s)) with (depth_ s).
  apply (for_from_commutes _ (fun t => wf t /\ same_frame s t)).
  - split; [exact Hwf | apply same_frame_refl].
  - intros j a t Hj (Hwt & _ & Hd & _). apply Insert_row_set_hash.
    rewrite (wf_hash_lookup t j Hwt) by (rewrite Hd; lia). apply Hh. lia.
  - intros j [] t [] t' Hj (Hwt & Hfr) Hrun.
    destruct (Insert_row_wf t item j Hwt) as (t1 & H1 & Hw1 & Hf1).
    + destruct Hfr as (_ & Hd & _). rewrite Hd. lia.
    + rewrite H1 in Hrun. injection Hrun as <-.
      split; [exact Hw1 | eapply same_frame_trans; eassumption].
Qed.

Lemma Count_set_hash s h item :
  wf s ->
  (forall j : nat, (j < Z.to_nat (depth_ s))%nat -> h !! j = Some (Z.of_nat j)) ->
  Count item (set_hash_functions h s) = lift (set_hash_functions h) (Count item s).
Proof.
  intros Hwf Hh. rewrite !Count_rows.
  change (depth_ (set_hash_functions h s)) with (depth_ s).
  apply bind_commutes; [|reflexivity]. unfold for_loop.
  apply (for_from_commutes _ (fun t => t = s)).
  - reflexivity.
  - intros j a t Hj ->. apply Count_row_set_hash.
    rewrite (wf_hash_lookup s j Hwf) by lia. apply Hh. lia.
  - intros j a t a' t' Hj -> Hrun.
    rewrite (Count_row_wf s item j a Hwf) in Hrun by lia. congruence.
Qed.

Lemma Clear_set_hash s h :
  Clear (set_hash_functions h s) = lift (set_hash_functions h) (Clear s).
Proof.
  unfold Clear. rewrite !bind_get.
  change (depth_ (set_hash_functions h s)) with (depth_ s).
  apply for_loop_commutes. intros j a t.
  apply bind_commutes; [apply lock_guard_set_hash|]. intros _ t'.
  rewrite !bind_get. change (counts_ (set_hash_functions h t')) with (counts_ t').
  destruct (counts_ t' !! j); reflexivity.
Qed.

Lemma Merge_set_hash other s h :
  Merge other (set_hash_functions h s) = lift (set_hash_functions h) (Merge other s).
Proof.
  unfold Merge. rewrite !bind_get.
  change (depth_ (set_hash_functions h s)) with (depth_ s).
  change (width_ (set_hash_functions h s)) with (width_ s).
  destruct (negb (width_ s =? width_ other) || negb (depth_ s =? depth_ other));
    [reflexivity|].
  apply for_loop_commutes. intros j a t.
  apply bind_commutes; [apply lock_guard_set_hash|]. intros _ t'.
  apply for_loop_commutes. intros c a' t''.
  apply bind_commutes; [apply read_other_set_hash|]. intros o t1.
  apply bind_commutes; [apply read_count_set_hash|]. intros v t2.
  apply write_count_set_hash.
Qed.

Lemma move_construct_fst other :
  wf other -> fst (move_construct other) = set_hash_functions [] other.
Proof.
  intros Hwf. unfold move_construct, set_hash_functions. simpl.
  rewrite (wf_locks _ Hwf). reflexivity.
Qed.

Lemma move_assign_fst this other :
  wf other ->
  fst (move_assign this other) = set_hash_functions (hash_functions_ this) other.
Proof.
  intros Hwf. unfold move_assign, set_hash_functions. simpl.
  rewrite (wf_locks _ Hwf). reflexivity.
Qed.

(** X14.  Move assignment leaves the receiver its own hash functions.  When
    the receiver had at least as many rows as the source, the receiver then
    works as the source did: [Count] returns what it returned on the source,
    and [Insert] on the receiver gives the state that moving the source after
    the insertion would have given. *)
Theorem move_assign_keeps_working this other item :
  reachable this -> reachable other -> depth_ other <= depth_ this ->
  (exists n, Count item other = Ok n other /\
     Count item (fst (move_assign this other)) = Ok n (fst (move_assign this other))) /\
  (exists other', Insert item other = Ok tt other' /\
     Insert item (fst (move_assign this other)) = Ok tt (fst (move_assign this other'))).
Proof.
  intros Hthis Hother Hdepth.
  pose proof (reachable_wf this Hthis) as Hwt. pose proof (reachable_wf other Hother) as Hwo.
  pose proof (wf_depth _ Hwo) as Hdo.
  assert (Hh : forall j : nat, (j < Z.to_nat (depth_ other))%nat ->
             hash_functions_ this !! j = Some (Z.of_nat j)).
  { intros j Hj. apply wf_hash_lookup; [exact Hwt | lia]. }
  rewrite (move_assign_fst this other Hwo). split.
  - exists (estimate other item). split; [apply Count_wf; exact Hwo|].
    rewrite (Count_set_hash other _ item Hwo Hh), (Count_wf other item Hwo). reflexivity.
  - destruct (Insert_wf other item Hwo) as (other' & Hrun & Hwo' & _).
    exists other'. split; [exact Hrun|].
    rewrite (Insert_set_hash other _ item Hwo Hh), Hrun, (move_assign_fst this other' Hwo').
    reflexivity.
Qed.

(** X15.  When the receiver of a move assignment had fewer rows than the
    source, [Insert] and [Count] on the receiver index [hash_functions_] out
    of range, at the receiver's former depth. *)
Theorem move_assign_into_shallower this other item :
  reachable this -> reachable other -> depth_ this < depth_ other ->
  Insert item (fst (move_assign this other)) =
    Undefined (index_out_of_range vec_hash_functions (Z.to_nat (depth_ this))) /\
  Count item (fst (move_assign this other)) =
    Undefined (index_out_of_range vec_hash_functions (Z.to_nat (depth_ this))).
Proof.
  intros Hthis Hother Hdepth.
  pose proof (reachable_wf this Hthis) as Hwt. pose proof (reachable_wf other Hother) as Hwo.
  pose proof (wf_depth _ Hwt) as Hdt.
  set (h := hash_functions_ this). set (m := Z.to_nat (depth_ this)).
  assert (Hbelow : forall j : nat, (j < m)%nat -> h !! j = Some (Z.of_nat j))
    by (intros j Hj; apply wf_hash_lookup; assumption).
  assert (Hat : h !! m = None)
    by (apply lookup_ge_None; unfold h, m; rewrite (wf_hash_length this Hwt); lia).
  rewrite (move_assign_fst this other Hwo). fold h.
  set (P := fun (j : nat) (t : CountMinSketch) =>
    exists t0, wf t0 /\ same_frame other t0 /\ t = set_hash_functions h t0).
  assert (HP0 : P O (set_hash_functions h other)).
  { exists other. split; [exact Hwo|]. split; [apply same_frame_refl | reflexivity]. }
  assert (Hrange : (0 <= m < 0 + Z.to_nat (depth_ other))%nat) by (unfold m; lia).
  clearbody h m. split.
  - rewrite Insert_rows. unfold for_loop.
    change (depth_ (set_hash_functions h other)) with (depth_ other).
    apply (for_from_fails (fun j (_ : unit) t => P j t) _ _ m); [exact Hrange | exact HP0 | |].
    + intros j [] t Hj (t0 & Hw0 & Hf0 & ->).
      pose proof Hf0 as (_ & Hd0 & _).
      assert (Hj0 : (j < Z.to_nat (depth_ t0))%nat) by (rewrite Hd0; lia).
      rewrite Insert_row_set_hash
        by (rewrite (wf_hash_lookup t0 j Hw0 Hj0); apply Hbelow; lia).
      destruct (Insert_row_wf t0 item j Hw0 Hj0) as (t1 & H1 & Hw1 & Hf1).
      rewrite H1. exists tt, (set_hash_functions h t1). split; [reflexivity|].
      exists t1. split; [exact Hw1|].
      split; [eapply same_frame_trans; eassumption | reflexivity].
    + intros [] t (t0 & _ & _ & ->).
      unfold Insert_row, call_hash_function. unfold bind, get. simpl.
      rewrite Hat. reflexivity.
  - rewrite Count_rows. unfold bind at 1.
    change (depth_ (set_hash_functions h other)) with (depth_ other).
    unfold for_loop.
    rewrite (for_from_fails (fun j (_ : Z) t => P j t) (Count_row item)
               (index_out_of_range vec_hash_functions m) m (Z.to_nat (depth_ other))
               O UINT32_MAX (set_hash_functions h other) Hrange HP0); [reflexivity | |].
    + intros j a t Hj (t0 & Hw0 & Hf0 & ->).
      pose proof Hf0 as (_ & Hd0 & _).
      assert (Hj0 : (j < Z.to_nat (depth_ t0))%nat) by (rewrite Hd0; lia).
      rewrite Count_row_set_hash
        by (rewrite (wf_hash_lookup t0 j Hw0 Hj0); apply Hbelow; lia).
      rewrite (Count_row_wf t0 item j a Hw0 Hj0).
      eexists _, (set_hash_functions h t0). split; [reflexivity|].
      exists t0. split; [exact Hw0|]. split; [exact Hf0 | reflexivity].
    + intros a t (t0 & _ & _ & ->).
      unfold Count_row, call_hash_function. unfold bind, get. simpl.
      rewrite Hat. reflexivity.
Qed.


(** X17.  [Clear] and [Merge] call no hash function, so they still work on
    the object that move construction builds: [Clear] sets its counters to 0,
    [Merge] adds the counters of another sketch of the same dimensions to
    those taken over from the source, and as the argument of [Merge] the
    object acts as the source would have. *)
Theorem moved_into_Clear_Merge other b :
  reachable other -> reachable b ->
  width_ b = width_ other -> depth_ b = depth_ other ->
  (exists t, Clear (fst (move_construct other)) = Ok tt t /\
     forall r c, cell t r c = 0) /\
  (exists t, Merge b (fst (move_construct other)) = Ok tt t /\
     forall r c, cell t r c = wrap32 (cell other r c + cell b r c)) /\
  Merge (fst (move_construct other)) b = Merge other b.
Proof.
  intros Hother Hb Hw Hd.
  pose proof (reachable_wf other Hother) as Hwo. pose proof (reachable_wf b Hb) as Hwb.
  rewrite (move_construct_fst other Hwo). split; [|split].
  - destruct (Clear_wf other Hwo) as (t & Hrun & _ & _ & Hcell).
    exists (set_hash_functions [] t). rewrite Clear_set_hash, Hrun.
    split; [reflexivity | exact Hcell].
  - destruct (Merge_wf other b Hwo Hwb Hw Hd) as (t & Hrun & _ & _ & Hcell).
    exists (set_hash_functions [] t). rewrite Merge_set_hash, Hrun.
    split; [reflexivity | exact Hcell].
  - reflexivity.
Qed.

(** ** [Merge] of a sketch with itself *)

(** Through a reference to another object [Merge_ref] is [Merge]. *)
Lemma Merge_ref_object other s : Merge_ref (ref_object other) s = Merge other s.
Proof. reflexivity. Qed.

(** The inner loop of [a.Merge(a)]: the counters of row [j] are doubled. *)
Lemma Merge_self_row s j :
  wf s -> (j < Z.to_nat (depth_ s))%nat ->
  exists s',
    for_loop (Z.to_nat (width_ s)) (fun c (_ : unit) =>
      o <- (fun this => read_other (deref ref_this this) j c this) ;;
      v <- read_count j c ;;
      write_count j c (wrap32 (v + o))) tt s = Ok tt s' /\
    wf s' /\ same_frame s s' /\
    forall r c, cell s' r c =
      if decide (r = j /\ (c < Z.to_nat (width_ s))%nat)
      then wrap32 (cell s r c + cell s r c) else cell s r c.
Proof.
  intros Hwf Hj.
  set (Q := fun (k : nat) (_ : unit) (u : CountMinSketch) =>
    wf u /\ same_frame s u /\
    forall r c, cell u r c =
      if decide (r = j /\ (c < k)%nat)
      then wrap32 (cell s r c + cell s r c) else cell s r c).
  match goal with |- context [for_loop ?n ?b ?a] =>
    destruct (for_loop_invariant Q b n a s) as ([] & s' & Hrun & HQ) end.
  - split; [exact Hwf | split; [apply same_frame_refl |]].
    intros r c. destruct (decide _) as [[_ ?]|_]; [lia | reflexivity].
  - intros k [] u Hk (Hwu & Hfr & Hcell).
    pose proof Hfr as (Hw' & Hd' & _).
    assert (Hju : (j < Z.to_nat (depth_ u))%nat) by (rewrite Hd'; exact Hj).
    assert (Hku : (k < Z.to_nat (width_ u))%nat) by (rewrite Hw'; exact Hk).
    assert (Hlive : (fun this => read_other (deref ref_this this) j k this) u
                    = Ok (cell u j k) u)
      by (simpl; apply read_other_wf; assumption).
    rewrite (bind_Ok _ _ _ _ _ Hlive).
    rewrite (bind_Ok _ _ _ _ _ (read_count_wf u j k Hwu Hju Hku)).
    destruct (write_count_wf u j k (wrap32 (cell u j k + cell u j k))
                Hwu Hju Hku (wrap32_range _)) as (u' & Hwr & Hwu' & Hfr' & Hcell').
    exists tt, u'. split; [exact Hwr|].
    split; [exact Hwu' | split; [eapply same_frame_trans; eassumption|]].
    intros r c. rewrite Hcell', !Hcell.
    destruct (decide (r = j /\ c = k)) as [[Hr Hc]|Hn].
    + subst r c. destruct (decide (j = j /\ (k < k)%nat)) as [[_ ?]|_]; [lia|].
      destruct (decide (j = j /\ (k < S k)%nat)) as [_|n]; [reflexivity|].
      exfalso. apply n. split; [reflexivity | lia].
    + destruct (decide (r = j /\ (c < k)%nat)) as [[? ?]|n1];
        destruct (decide (r = j /\ (c < S k)%nat)) as [[? ?]|n2]; try reflexivity.
      * exfalso. apply n2. split; [assumption | lia].
      * exfalso. assert (c = k) by lia. apply Hn. split; assumption.
  - exists s'. split; [exact Hrun | exact HQ].
Qed.

Lemma Merge_self_wf s :
  wf s ->
  exists s', Merge_ref ref_this s = Ok tt s' /\ wf s' /\ same_frame s s' /\
    forall r c, cell s' r c = wrap32 (cell s r c + cell s r c).
Proof.
  intros Hwf. unfold Merge_ref. rewrite !bind_get. simpl deref.
  rewrite !Z.eqb_refl. simpl.
  set (P := fun (j : nat) (_ : unit) (t : CountMinSketch) =>
    wf t /\ same_frame s t /\
    forall r c, cell t r c =
      if decide (r < j)%nat then wrap32 (cell s r c + cell s r c) else cell s r c).
  match goal with |- context [for_loop ?n ?b ?a] =>
    destruct (for_loop_invariant P b n a s) as ([] & s' & Hrun & Hwf' & Hfr & Hcell) end.
  - split; [exact Hwf | split; [apply same_frame_refl |]].
    intros r c. destruct (decide _); [lia | reflexivity].
  - intros j [] t Hj (Hwt & Hfr & Hcell).
    pose proof Hfr as (Hw' & Hd' & _).
    assert (Hjt : (j < Z.to_nat (depth_ t))%nat) by (rewrite Hd'; exact Hj).
    rewrite (bind_Ok _ _ _ _ _ (lock_guard_wf t j Hwt Hjt)).
    destruct (Merge_self_row t j Hwt Hjt) as (t' & Hrow & Hwt' & Hfr' & Hcell').
    rewrite Hw' in Hrow. exists tt, t'. split; [exact Hrow|].
    split; [exact Hwt' | split; [eapply same_frame_trans; eassumption|]].
    intros r c. rewrite Hcell', !Hcell, Hw'.
    destruct (decide (r = j /\ (c < Z.to_nat (width_ s))%nat)) as [[Hr Hc]|Hn].
    + subst r. destruct (decide (j < j)%nat); [lia|].
      destruct (decide (j < S j)%nat); [reflexivity | lia].
    + destruct (decide (r < j)%nat); destruct (decide (r < S j)%nat);
        try reflexivity; try lia.
      assert (r = j) by lia. subst r.
      assert (Hout : ~ (c < Z.to_nat (width_ s))%nat) by (intros ?; apply Hn; auto).
      rewrite (cell_outside s j c Hwf); [reflexivity | tauto].
  - exists s'. split; [exact Hrun|]. split; [exact Hwf' | split; [exact Hfr|]].
    intros r c. rewrite Hcell. destruct (decide _) as [|Hn]; [reflexivity|].
    rewrite (cell_outside s r c Hwf); [reflexivity | tauto].
Qed.

(** X18.  A sketch can be merged with itself: [a.Merge(a)] returns, doubles
    every counter modulo [2^32], and leaves the state that merging an
    unchanging copy of [a] would leave. *)
Theorem Merge_with_itself s :
  reachable s ->
  exists s', Merge_ref ref_this s = Ok tt s' /\
    (forall r c, cell s' r c = wrap32 (2 * cell s r c)) /\
    Merge s s = Ok tt s'.
Proof.
  intros Hreach. pose proof (reachable_wf s Hreach) as Hwf.
  destruct (Merge_self_wf s Hwf) as (s' & Hrun & Hwf' & (Hw & Hd & _) & Hcell).
  exists s'. split; [exact Hrun|]. split.
  - intros r c. rewrite Hcell. f_equal. lia.
  - destruct (Merge_wf s s Hwf Hwf eq_refl eq_refl)
      as (s2 & Hrun2 & Hwf2 & (Hw2 & Hd2 & _) & Hcell2).
    rewrite Hrun2. f_equal.
    apply sketch_ext; [assumption | assumption | congruence | congruence |].
    intros r c. rewrite Hcell, Hcell2. reflexivity.
Qed.

(** ** Further properties: hashing, one insertion, the empty sketch *)

(** X19.  A hash function called on an object of positive width returns a
    column of the grid, whatever its seed, and leaves the object as it is. *)
Theorem HashFunction_in_range seed item s :
  0 < width_ s ->
  exists col, HashFunction seed item s = Ok col s /\ 0 <= col < width_ s.
Proof.
  intros Hw. unfold HashFunction. rewrite bind_get.
  destruct (Z.eqb_spec (width_ s) 0) as [E|_]; [lia|].
  eexists. split; [reflexivity|]. apply Z.mod_pos_bound. exact Hw.
Qed.

(** What an insertion does to the counters selected for a key that are below
    [2^32 - 2]. *)
Lemma Insert_selected_cells s item key :
  wf s ->
  (forall r, (r < Z.to_nat (depth_ s))%nat ->
     cell s r (column (width_ s) r key) < UINT32_MAX - 1) ->
  exists s', Insert item s = Ok tt s' /\ wf s' /\
    width_ s' = width_ s /\ depth_ s' = depth_ s /\
    (forall r, (r < Z.to_nat (depth_ s))%nat ->
       cell s r (column (width_ s) r key) <= cell s' r (column (width_ s) r key)
         <= cell s r (column (width_ s) r key) + 1) /\
    (forall r, (r < Z.to_nat (depth_ s))%nat ->
       column (width_ s) r item = column (width_ s) r key ->
       cell s' r (column (width_ s) r key) = cell s r (column (width_ s) r key) + 1).
Proof.
  intros Hwf Hbelow.
  destruct (Insert_wf s item Hwf) as (s' & Hrun & Hwf' & (Hw & Hd & _) & Hcell).
  exists s'. split; [exact Hrun|]. split; [exact Hwf'|]. split; [exact Hw|].
  split; [exact Hd|].
  assert (Hplus : forall r, (r < Z.to_nat (depth_ s))%nat ->
            wrap32 (cell s r (column (width_ s) r key) + 1) =
            cell s r (column (width_ s) r key) + 1).
  { intros r Hr. specialize (Hbelow r Hr).
    pose proof (wf_cells _ Hwf r (column (width_ s) r key)).
    unfold UINT32_MAX in Hbelow. apply wrap32_small. lia. }
  split.
  - intros r Hr. rewrite Hcell. destruct (decide _); [rewrite (Hplus r Hr)|]; lia.
  - intros r Hr Hsame. rewrite Hcell.
    destruct (decide _) as [_|Hn]; [apply Hplus; exact Hr|].
    exfalso. apply Hn. split; [exact Hr | symmetry; exact Hsame].
Qed.

(** X20.  Insertion and count agree: while the counters selected for [item]
    are below [2^32 - 2], [Insert item] raises [Count item] by exactly 1. *)
Theorem Insert_raises_Count_by_one s item :
  reachable s -> 0 < depth_ s ->
  (forall r, (r < Z.to_nat (depth_ s))%nat ->
     cell s r (column (width_ s) r item) < UINT32_MAX - 1) ->
  exists s' n, Count item s = Ok n s /\ Insert item s = Ok tt s' /\
    Count item s' = Ok (n + 1) s'.
Proof.
  intros Hreach Hd Hbelow. pose proof (reachable_wf s Hreach) as Hwf.
  destruct (Insert_selected_cells s item item Hwf Hbelow)
    as (s' & Hrun & Hwf' & Hw & Hd' & Hnear & Hexact).
  exists s', (estimate s item). split; [apply Count_wf; exact Hwf|].
  split; [exact Hrun|]. rewrite (Count_wf s' item Hwf'). f_equal.
  assert (Hlt : forall r, (r < Z.to_nat (depth_ s))%nat ->
            cell s r (column (width_ s) r item) < UINT32_MAX)
    by (intros r Hr; specialize (Hbelow r Hr); lia).
  destruct (estimate_below_sentinel s item Hd Hlt) as (Eq & Hin).
  rewrite <- Eq in Hin. apply elem_of_selected in Hin. destruct Hin as (r0 & Hr0 & E0).
  apply Z.le_antisymm.
  - pose proof (estimate_le_cell s' item r0 Hwf' ltac:(rewrite Hd'; exact Hr0)) as Hle.
    rewrite Hw, (Hexact r0 Hr0 eq_refl) in Hle. lia.
  - apply estimate_lower; [lia|]. rewrite Hd', Hw. intros r Hr.
    rewrite (Hexact r Hr eq_refl).
    pose proof (estimate_upper s item r Hd Hlt Hr). specialize (Hbelow r Hr). lia.
Qed.

(** X21.  The insertion of any key raises the count of [item] by 0 or by 1,
    while the counters selected for [item] are below [2^32 - 2]. *)
Theorem Insert_raises_Count_by_at_most_one s key item :
  reachable s ->
  (forall r, (r < Z.to_nat (depth_ s))%nat ->
     cell s r (column (width_ s) r item) < UINT32_MAX - 1) ->
  exists s' n n', Count item s = Ok n s /\ Insert key s = Ok tt s' /\
    Count item s' = Ok n' s' /\ n <= n' <= n + 1.
Proof.
  intros Hreach Hbelow. pose proof (reachable_wf s Hreach) as Hwf.
  destruct (Insert_selected_cells s key item Hwf Hbelow)
    as (s' & Hrun & Hwf' & Hw & Hd' & Hnear & _).
  exists s', (estimate s item), (estimate s' item).
  split; [apply Count_wf; exact Hwf|]. split; [exact Hrun|].
  split; [apply Count_wf; exact Hwf'|].
  destruct (Z.eq_dec (depth_ s) 0) as [E|E].
  { rewrite !estimate_no_rows by lia. lia. }
  pose proof (wf_depth _ Hwf) as Hrange. assert (Hd : 0 < depth_ s) by lia.
  assert (Hlt : forall r, (r < Z.to_nat (depth_ s))%nat ->
            cell s r (column (width_ s) r item) < UINT32_MAX)
    by (intros r Hr; specialize (Hbelow r Hr); lia).
  destruct (estimate_below_sentinel s item Hd Hlt) as (Eq & Hin).
  rewrite <- Eq in Hin. apply elem_of_selected in Hin. destruct Hin as (r0 & Hr0 & E0).
  split.
  - apply estimate_lower; [lia|]. rewrite Hd', Hw. intros r Hr.
    pose proof (estimate_upper s item r Hd Hlt Hr). specialize (Hbelow r Hr).
    specialize (Hnear r Hr). lia.
  - pose proof (estimate_le_cell s' item r0 Hwf' ltac:(rewrite Hd'; exact Hr0)) as Hle.
    rewrite Hw in Hle. specialize (Hnear r0 Hr0). lia.
Qed.

(** X22.  A new sketch is neutral for [Merge]: merging the sketch the
    constructor builds for the receiver's dimensions changes nothing. *)
Theorem Merge_new_changes_nothing s :
  reachable s -> Merge (new (width_ s) (depth_ s)) s = Ok tt s.
Proof.
  intros Hreach. pose proof (reachable_wf s Hreach) as Hwf.
  pose proof (new_wf _ _ (wf_width _ Hwf) (wf_depth _ Hwf)) as Hwn.
  destruct (Merge_wf s _ Hwf Hwn eq_refl eq_refl) as (s' & Hrun & Hwf' & (Hw & Hd & _) & Hcell).
  rewrite Hrun. f_equal.
  apply sketch_ext; [exact Hwf | exact Hwf' | exact Hw | exact Hd |].
  intros r c. rewrite Hcell, new_cell, Z.add_0_r. apply wrap32_small. apply Hwf.
Qed.

End Sketch.

(** ** The scenario of the specification *)

Lemma scenario_run :
  InsertAll int_hash xor_combine scenario_items (new 10 3) = Ok tt scenario.
Proof. vm_compute. reflexivity. Qed.

Lemma scenario_reachable : reachable int_hash xor_combine scenario.
Proof.
  apply (reachable_InsertAll int_hash xor_combine scenario_items (new 10 3)).
  - apply reachable_new; lia.
  - exact scenario_run.
Qed.

Lemma scenario_other_reachable : reachable int_hash xor_combine scenario_other.
Proof.
  apply (reachable_InsertAll int_hash xor_combine [2; 3] (new 10 3)).
  - apply reachable_new; lia.
  - vm_compute. reflexivity.
Qed.

(** The counts of the scenario: 5 for key 1, 2 for key 2, 0 for an unseen key. *)
Example scenario_counts :
  Count int_hash xor_combine 1 scenario = Ok 5 scenario /\
  Count int_hash xor_combine 2 scenario = Ok 2 scenario /\
  Count int_hash xor_combine 3 scenario = Ok 0 scenario.
Proof. repeat split; vm_compute; reflexivity. Qed.

Example scenario_top_1 :
  TopK int_hash xor_combine 1 [1; 2] scenario = Ok [(1, 5)] scenario.
Proof. vm_compute. reflexivity. Qed.

(** ** The theorems at the scenario *)

Lemma Count_no_underestimate_witness :
  Z.of_nat (length scenario_items) < UINT32_MAX /\
  exists s' n,
    InsertAll int_hash xor_combine scenario_items (new 10 3) = Ok tt s' /\
    Count int_hash xor_combine 1 s' = Ok n s' /\
    occurrences 1 scenario_items <= n.
Proof.
  split; [reflexivity|].
  apply (Count_no_underestimate_below_sentinel int_hash xor_combine
           (new 10 3) scenario_items 1).
  - apply reachable_new; lia.
  - apply new_cell.
  - reflexivity.
  - intros r _.
    pose proof (hits_le_length int_hash xor_combine 10 r
                  (column int_hash xor_combine 10 r 1) scenario_items) as Hle.
    simpl length in Hle. simpl width_. unfold UINT32_MAX. lia.
Defined.

Lemma Count_monotone_witness :
  exists s' a b,
    InsertAll int_hash xor_combine [2; 3] scenario = Ok tt s' /\
    Count int_hash xor_combine 1 scenario = Ok a scenario /\
    Count int_hash xor_combine 1 s' = Ok b s' /\ a <= b.
Proof.
  apply (Count_monotone_below_sentinel int_hash xor_combine scenario [2; 3] 1).
  - exact scenario_reachable.
  - intros r Hr.
    pose proof (hits_le_length int_hash xor_combine 10 r
                  (column int_hash xor_combine 10 r 1) [2; 3]) as Hle.
    simpl length in Hle. simpl width_. simpl depth_ in Hr.
    assert (Hcell : cell scenario r (column int_hash xor_combine 10 r 1) = 5).
    { do 3 (destruct r as [|r]; [vm_compute; reflexivity|]). vm_compute in Hr. lia. }
    rewrite Hcell. unfold UINT32_MAX. lia.
Defined.

Lemma Merge_adds_cells_witness :
  width_ scenario_other = width_ scenario /\
  depth_ scenario_other = depth_ scenario /\
  exists a', Merge scenario_other scenario = Ok tt a' /\
    forall r c, cell a' r c = wrap32 (cell scenario r c + cell scenario_other r c).
Proof.
  split; [reflexivity|]. split; [reflexivity|].
  destruct (Merge_adds_cells int_hash xor_combine scenario scenario_other
              scenario_reachable scenario_other_reachable eq_refl eq_refl)
    as (a' & Hrun & Hcell & _).
  exists a'. split; [exact Hrun | exact Hcell].
Defined.

Lemma Merge_dimension_mismatch_witness :
  depth_ scenario <> depth_ (new 10 2) /\
  Merge (new 10 2) scenario = Throw (invalid_argument Merge_message) scenario.
Proof.
  split; [discriminate|].
  apply (Merge_dimension_mismatch scenario (new 10 2)). right. discriminate.
Defined.

Lemma Clear_resets_witness :
  exists s', Clear scenario = Ok tt s' /\
    forall item, Count int_hash xor_combine item s' = Ok 0 s'.
Proof.
  exact (Clear_resets int_hash xor_combine scenario scenario_reachable).
Defined.

Lemma TopK_correct_witness :
  exists result,
    TopK int_hash xor_combine 1 [1; 2] scenario = Ok result scenario /\
    length result = 1%nat /\
    forall key c, (key, c) ∈ result -> Count int_hash xor_combine key scenario = Ok c scenario.
Proof.
  destruct (TopK_correct int_hash xor_combine scenario 1 [1; 2] scenario_reachable)
    as (result & Hrun & Hlen & _ & Hcount & _).
  - unfold UINT16_MAX. lia.
  - exists result. split; [exact Hrun|]. split; [exact Hlen | exact Hcount].
Defined.

Lemma grid_invariant_witness :
  exists s', Clear scenario = Ok tt s' /\ dimensions s' = dimensions scenario /\
    forall r c, cell s' r c = 0.
Proof.
  destruct (grid_invariant int_hash xor_combine scenario scenario_reachable)
    as (_ & _ & _ & H & _).
  exact H.
Defined.

Lemma move_construct_witness :
  0 < depth_ scenario /\
  Insert int_hash xor_combine 1 (fst (move_construct scenario)) =
    Undefined (index_out_of_range vec_hash_functions 0) /\
  Count int_hash xor_combine 1 (fst (move_construct scenario)) =
    Undefined (index_out_of_range vec_hash_functions 0).
Proof.
  split; [reflexivity|].
  destruct (move_construct_loses_hash_functions int_hash xor_combine scenario 1)
    as (_ & _ & _ & _ & HI & HC).
  - reflexivity.
  - split; [exact HI | exact HC].
Defined.

Lemma counter_wraps_witness :
  (exists s s1,
     InsertAll int_hash xor_combine (times 5 1) (new 10 3) = Ok tt s /\
     (forall r, (r < Z.to_nat 3)%nat ->
        cell s r (column int_hash xor_combine 10 r 1) = wrap32 5) /\
     Count int_hash xor_combine 1 s = Ok 5 s /\
     Insert int_hash xor_combine 1 s = Ok tt s1 /\
     (forall r, (r < Z.to_nat 3)%nat ->
        cell s1 r (column int_hash xor_combine 10 r 1) = wrap32 (5 + 1))) /\
  exists s',
    InsertAll int_hash xor_combine (times 4294967296 1) (new 10 3) = Ok tt s' /\
    (forall r, (r < Z.to_nat 3)%nat ->
       cell s' r (column int_hash xor_combine 10 r 1) = 0) /\
    Count int_hash xor_combine 1 s' = Ok 0 s' /\
    occurrences 1 (times 4294967296 1) = 4294967296.
Proof.
  destruct (counter_wraps_at_2_32 int_hash xor_combine 10 3 1 ltac:(lia) ltac:(lia))
    as (Hevery & _ & Hwrapped).
  split; [|exact Hwrapped].
  destruct (Hevery 5 ltac:(lia)) as (s & s1 & Hrun & _ & Hcell & Hcount & Hrun1 & Hcell1).
  exists s, s1. split; [exact Hrun|]. split; [exact Hcell|].
  split; [apply Hcount; reflexivity|]. split; [exact Hrun1 | exact Hcell1].
Defined.


(** ** Where the claims as stated fail

    The sketches below have one counter, so every key uses that counter
    whatever the hash functions are ([column_width_1]). *)

(** C1 as stated fails: after [2^32 - 1] insertions of key 7 the counter
    holds [2^32 - 1], which [Count] reports as 0; after [2^32] insertions the
    counter has wrapped to 0 and [Count] returns 0 again. *)
Lemma Count_no_underestimate_counterexample :
  (InsertAll int_hash xor_combine (times 4294967295 7) (new 1 1)
     = Ok tt (one_counter 4294967295) /\
   occurrences 7 (times 4294967295 7) = 4294967295 /\
   Count int_hash xor_combine 7 (one_counter 4294967295)
     = Ok 0 (one_counter 4294967295)) /\
  (InsertAll int_hash xor_combine (times 4294967296 7) (new 1 1)
     = Ok tt (one_counter 0) /\
   occurrences 7 (times 4294967296 7) = 4294967296 /\
   Count int_hash xor_combine 7 (one_counter 0) = Ok 0 (one_counter 0)).
Proof.
  split; (split; [rewrite InsertAll_times_1x1 by lia; reflexivity|]);
    (split; [apply occurrences_times; lia | vm_compute; reflexivity]).
Qed.

(** C6 as stated fails: with the counter at [2^32 - 2], [Count] returns
    [2^32 - 2]; one more insertion makes it return 0, and so does a second
    one, which wraps the counter. *)
Lemma Count_monotone_counterexample :
  InsertAll int_hash xor_combine (times 4294967294 7) (new 1 1)
    = Ok tt (one_counter 4294967294) /\
  Count int_hash xor_combine 7 (one_counter 4294967294)
    = Ok 4294967294 (one_counter 4294967294) /\
  InsertAll int_hash xor_combine [7] (one_counter 4294967294)
    = Ok tt (one_counter 4294967295) /\
  Count int_hash xor_combine 7 (one_counter 4294967295)
    = Ok 0 (one_counter 4294967295) /\
  InsertAll int_hash xor_combine [7; 7] (one_counter 4294967294)
    = Ok tt (one_counter 0) /\
  Count int_hash xor_combine 7 (one_counter 0) = Ok 0 (one_counter 0).
Proof.
  split; [rewrite InsertAll_times_1x1 by lia; reflexivity|].
  repeat split; vm_compute; reflexivity.
Qed.

(** C2 as stated fails twice.  Without any overflow: key 1 counts 0 in the
    sketch that holds key 2 and 0 in the sketch that holds key 6, and 1 after
    the merge (with [int_hash] and [xor_combine]).  With overflow: two
    sketches of one counter at [2^31] merge into a counter at 0. *)
Lemma Merge_additivity_counterexample :
  (InsertAll int_hash xor_combine [2] (new 3 2) = Ok tt holds_2 /\
   InsertAll int_hash xor_combine [6] (new 3 2) = Ok tt holds_6 /\
   Merge holds_6 holds_2 = Ok tt holds_2_and_6 /\
   Count int_hash xor_combine 1 holds_2 = Ok 0 holds_2 /\
   Count int_hash xor_combine 1 holds_6 = Ok 0 holds_6 /\
   Count int_hash xor_combine 1 holds_2_and_6 = Ok 1 holds_2_and_6) /\
  (InsertAll int_hash xor_combine (times 2147483648 7) (new 1 1)
     = Ok tt (one_counter 2147483648) /\
   Merge (one_counter 2147483648) (one_counter 2147483648) = Ok tt (one_counter 0) /\
   Count int_hash xor_combine 7 (one_counter 2147483648)
     = Ok 2147483648 (one_counter 2147483648) /\
   Count int_hash xor_combine 7 (one_counter 0) = Ok 0 (one_counter 0)).
Proof.
  split.
  - repeat split; vm_compute; reflexivity.
  - split; [rewrite InsertAll_times_1x1 by lia; reflexivity|].
    repeat split; vm_compute; reflexivity.
Qed.

(** C7 as stated fails: an insertion takes the counter from [2^32 - 1] to 0. *)
Lemma grid_invariant_counterexample :
  InsertAll int_hash xor_combine (times 4294967295 7) (new 1 1)
    = Ok tt (one_counter 4294967295) /\
  Insert int_hash xor_combine 7 (one_counter 4294967295) = Ok tt (one_counter 0) /\
  cell (one_counter 0) 0 0 < cell (one_counter 4294967295) 0 0.
Proof.
  split; [rewrite InsertAll_times_1x1 by lia; reflexivity|].
  split; vm_compute; reflexivity.
Qed.


(** ** The further properties at the scenario *)

Lemma scenario_cell_of_key_1 (r : nat) :
  (r < 3)%nat -> cell scenario r (column int_hash xor_combine 10 r 1) = 5.
Proof.
  intros Hr. do 3 (destruct r as [|r]; [vm_compute; reflexivity|]). lia.
Qed.

Lemma new_counts_zero_witness :
  Count int_hash xor_combine 1 (new 10 3) = Ok 0 (new 10 3).
Proof. apply (new_counts_zero int_hash xor_combine 10 3 1); lia. Defined.

Lemma zero_width_witness :
  Insert int_hash xor_combine 1 (new 0 3) = Undefined remainder_by_zero /\
  Count int_hash xor_combine 1 (new 0 3) = Undefined remainder_by_zero.
Proof. apply (zero_width_divides_by_zero int_hash xor_combine 3 1). lia. Defined.

Lemma Insert_increments_selected_witness :
  exists s', Insert int_hash xor_combine 1 scenario = Ok tt s' /\
    forall r c, cell s' r c =
      if decide ((r < Z.to_nat (depth_ scenario))%nat
                 /\ c = column int_hash xor_combine (width_ scenario) r 1)
      then wrap32 (cell scenario r c + 1) else cell scenario r c.
Proof.
  exact (Insert_increments_selected int_hash xor_combine scenario 1 scenario_reachable).
Defined.

Lemma InsertAll_order_irrelevant_witness :
  exists s', InsertAll int_hash xor_combine [1; 2; 3] scenario = Ok tt s' /\
             InsertAll int_hash xor_combine [3; 1; 2] scenario = Ok tt s'.
Proof.
  apply (InsertAll_order_irrelevant int_hash xor_combine scenario [1; 2; 3] [3; 1; 2]
           scenario_reachable).
  change [3; 1; 2] with ([3] ++ [1; 2]). change [1; 2; 3] with ([1; 2] ++ [3]).
  apply Permutation_app_comm.
Defined.

Lemma Count_range_witness :
  exists v, Count int_hash xor_combine 1 scenario = Ok v scenario /\ 0 <= v < UINT32_MAX.
Proof. exact (Count_range int_hash xor_combine scenario 1 scenario_reachable). Defined.

Lemma Count_at_most_insertions_witness :
  exists s' n,
    InsertAll int_hash xor_combine scenario_items (new 10 3) = Ok tt s' /\
    Count int_hash xor_combine 3 s' = Ok n s' /\
    n <= Z.of_nat (length scenario_items).
Proof.
  apply (Count_at_most_insertions int_hash xor_combine (new 10 3) scenario_items 3).
  - apply reachable_new; lia.
  - apply new_cell.
Defined.

Lemma Count_exact_witness :
  exists s',
    InsertAll int_hash xor_combine scenario_items (new 10 3) = Ok tt s' /\
    Count int_hash xor_combine 1 s' = Ok (occurrences 1 scenario_items) s'.
Proof.
  apply (Count_exact_without_collision int_hash xor_combine
           (new 10 3) scenario_items 1 O).
  - apply reachable_new; lia.
  - apply new_cell.
  - intros r _.
    pose proof (hits_le_length int_hash xor_combine 10 r
                  (column int_hash xor_combine 10 r 1) scenario_items) as Hle.
    simpl length in Hle. simpl width_. unfold UINT32_MAX. lia.
  - simpl. lia.
  - intros k Hk Hcol. unfold scenario_items in Hk.
    assert (Hcases : k = 1 \/ k = 2).
    { repeat (apply elem_of_cons in Hk; destruct Hk as [->|Hk]); auto. inversion Hk. }
    destruct Hcases as [->| ->]; [reflexivity | vm_compute in Hcol; discriminate].
Defined.

Lemma Clear_is_new_witness : Clear scenario = Ok tt (new 10 3).
Proof. exact (Clear_is_new int_hash xor_combine scenario scenario_reachable). Defined.

Lemma Merge_is_InsertAll_witness :
  exists s', Merge scenario_other scenario = Ok tt s' /\
             InsertAll int_hash xor_combine [2; 3] scenario = Ok tt s'.
Proof.
  apply (Merge_is_InsertAll int_hash xor_combine scenario scenario_other [2; 3]
           scenario_reachable).
  vm_compute. reflexivity.
Defined.

Lemma Merge_commutative_witness :
  exists c, Merge scenario_other scenario = Ok tt c /\
            Merge scenario scenario_other = Ok tt c.
Proof.
  exact (Merge_commutative int_hash xor_combine scenario scenario_other
           scenario_reachable scenario_other_reachable eq_refl eq_refl).
Defined.

Lemma Merge_associative_witness :
  exists ab bc abc,
    Merge scenario_other scenario = Ok tt ab /\ Merge scenario ab = Ok tt abc /\
    Merge scenario scenario_other = Ok tt bc /\ Merge bc scenario = Ok tt abc.
Proof.
  exact (Merge_associative int_hash xor_combine scenario scenario_other scenario
           scenario_reachable scenario_other_reachable scenario_reachable
           eq_refl eq_refl eq_refl eq_refl).
Defined.

Lemma TopK_empty_witness :
  TopK int_hash xor_combine 0 [1; 2] scenario = Ok [] scenario /\
  TopK int_hash xor_combine 5 [] scenario = Ok [] scenario.
Proof.
  exact (TopK_empty int_hash xor_combine scenario 5 [1; 2] scenario_reachable).
Defined.

Lemma TopK_counts_canonical_witness :
  exists result, TopK int_hash xor_combine 2 [2; 3; 1] scenario = Ok result scenario /\
    snd <$> result =
    take (Z.to_nat 2)
      (descending ((fun key => estimate int_hash xor_combine scenario key) <$> [2; 3; 1])).
Proof.
  apply (TopK_counts_canonical int_hash xor_combine scenario 2 [2; 3; 1]
           scenario_reachable).
  unfold UINT16_MAX. lia.
Defined.

Lemma move_assign_keeps_working_witness :
  (exists n, Count int_hash xor_combine 2 scenario_other = Ok n scenario_other /\
     Count int_hash xor_combine 2 (fst (move_assign scenario scenario_other))
       = Ok n (fst (move_assign scenario scenario_other))) /\
  (exists other', Insert int_hash xor_combine 2 scenario_other = Ok tt other' /\
     Insert int_hash xor_combine 2 (fst (move_assign scenario scenario_other))
       = Ok tt (fst (move_assign scenario other'))).
Proof.
  apply (move_assign_keeps_working int_hash xor_combine scenario scenario_other 2
           scenario_reachable scenario_other_reachable).
  simpl. lia.
Defined.

Lemma move_assign_into_shallower_witness :
  Insert int_hash xor_combine 1 (fst (move_assign (new 3 2) scenario)) =
    Undefined (index_out_of_range vec_hash_functions 2) /\
  Count int_hash xor_combine 1 (fst (move_assign (new 3 2) scenario)) =
    Undefined (index_out_of_range vec_hash_functions 2).
Proof.
  apply (move_assign_into_shallower int_hash xor_combine (new 3 2) scenario 1).
  - apply reachable_new; lia.
  - exact scenario_reachable.
  - simpl. lia.
Defined.


Lemma moved_into_Clear_Merge_witness :
  (exists t, Clear (fst (move_construct scenario)) = Ok tt t /\
     forall r c, cell t r c = 0) /\
  (exists t, Merge scenario_other (fst (move_construct scenario)) = Ok tt t /\
     forall r c, cell t r c = wrap32 (cell scenario r c + cell scenario_other r c)) /\
  Merge (fst (move_construct scenario)) scenario_other = Merge scenario scenario_other.
Proof.
  exact (moved_into_Clear_Merge int_hash xor_combine scenario scenario_other
           scenario_reachable scenario_other_reachable eq_refl eq_refl).
Defined.

Lemma Merge_with_itself_witness :
  exists s', Merge_ref ref_this scenario = Ok tt s' /\
    (forall r c, cell s' r c = wrap32 (2 * cell scenario r c)) /\
    Merge scenario scenario = Ok tt s'.
Proof.
  exact (Merge_with_itself int_hash xor_combine scenario scenario_reachable).
Defined.

Lemma HashFunction_in_range_witness :
  exists col, HashFunction int_hash xor_combine 7 1 scenario = Ok col scenario /\
              0 <= col < width_ scenario.
Proof.
  apply (HashFunction_in_range int_hash xor_combine 7 1 scenario). reflexivity.
Defined.

Lemma Insert_raises_Count_by_one_witness :
  exists s' n, Count int_hash xor_combine 1 scenario = Ok n scenario /\
    Insert int_hash xor_combine 1 scenario = Ok tt s' /\
    Count int_hash xor_combine 1 s' = Ok (n + 1) s'.
Proof.
  apply (Insert_raises_Count_by_one int_hash xor_combine scenario 1 scenario_reachable).
  - reflexivity.
  - intros r Hr. change (width_ scenario) with 10.
    rewrite (scenario_cell_of_key_1 r Hr). reflexivity.
Defined.

Lemma Insert_raises_Count_by_at_most_one_witness :
  exists s' n n', Count int_hash xor_combine 1 scenario = Ok n scenario /\
    Insert int_hash xor_combine 2 scenario = Ok tt s' /\
    Count int_hash xor_combine 1 s' = Ok n' s' /\ n <= n' <= n + 1.
Proof.
  apply (Insert_raises_Count_by_at_most_one int_hash xor_combine scenario 2 1
           scenario_reachable).
  intros r Hr. change (width_ scenario) with 10.
  rewrite (scenario_cell_of_key_1 r Hr). reflexivity.
Defined.

Lemma Merge_new_changes_nothing_witness :
  Merge (new 10 3) scenario = Ok tt scenario.
Proof.
  exact (Merge_new_changes_nothing int_hash xor_combine scenario scenario_reachable).
Defined.
